(** * Countries list screen: filter, sort-on-load and population formatting

    A shallow embedding of [countries-app/app/(tabs)/index.tsx]:

    - the [Country] record type (lines 13-20),
    - the [load] function of the [App] component (lines 30-46),
    - the derived value [filtered] (lines 52-56),
    - the helper [formatPopulation] (lines 58-65).

    JavaScript strings are sequences of UTF-16 code units, numbers are
    IEEE-754 binary64 values, and arrays are mutable objects that live in
    a heap; each of the three is modelled below as far as the four
    definitions above need it. *)

From Stdlib Require Import ZArith List Lia String Ascii Bool DecimalString.
From stdpp Require Import base list gmap sorting.

Open Scope Z_scope.

(** ** Strings *)

(** A JavaScript string is a finite sequence of 16-bit code units. *)
Definition code_unit := N.
Definition JSString := list code_unit.

(** String literals of the source that only contain ASCII characters. *)
Definition js (s : string) : JSString :=
  List.map N_of_ascii (list_ascii_of_string s).

(** [s.length > 0]: the truthiness test that [query ? ... : ...] performs. *)
Definition truthy (s : JSString) : bool :=
  match s with
  | [] => false
  | _ :: _ => true
  end.

(** [starts_with t s]: [t] is a prefix of [s]. *)
Fixpoint starts_with (t s : JSString) : bool :=
  match t, s with
  | [], _ => true
  | _ :: _, [] => false
  | a :: t', b :: s' => N.eqb a b && starts_with t' s'
  end.

(** [String.prototype.includes(searchString)] with the default position 0:
    some index [k] of [s] is the start of an occurrence of [t]. *)
Fixpoint includes (s t : JSString) : bool :=
  starts_with t s ||
  match s with
  | [] => false
  | _ :: s' => includes s' t
  end.

(** The ASCII fragment of [String.prototype.toLowerCase]: the code units
    of [A-Z] are moved to [a-z], every other code unit is kept.  It is the
    instance used for the concrete examples; the general statements take
    [toLowerCase] as a parameter. *)
Definition ascii_lower_unit (c : code_unit) : code_unit :=
  if (65 <=? c)%N && (c <=? 90)%N then (c + 32)%N else c.

Definition ascii_toLowerCase (s : JSString) : JSString :=
  List.map ascii_lower_unit s.

(** Code-unit-wise lexicographic comparison, returning a negative number,
    zero or a positive number like [String.prototype.localeCompare]. *)
Fixpoint code_unit_compare (a b : JSString) : Z :=
  match a, b with
  | [], [] => 0
  | [], _ :: _ => -1
  | _ :: _, [] => 1
  | x :: a', y :: b' =>
      match N.compare x y with
      | Lt => -1
      | Gt => 1
      | Eq => code_unit_compare a' b'
      end
  end.

(** A stand-in for [localeCompare] on ASCII names: letters compare without
    regard to case.  It is the instance used for the concrete examples. *)
Definition ascii_localeCompare (a b : JSString) : Z :=
  code_unit_compare (ascii_toLowerCase a) (ascii_toLowerCase b).

(** ** Numbers *)

Module Number.

(** A finite non-negative binary64 value [mant * 2 ^ expo]. *)
Record double := Double { mant : Z; expo : Z }.

(** The integers that a [number] holds exactly: [0] and every
    [m * 2 ^ e] with [m < 2 ^ 53] and [e >= 0]. *)
Definition representable (n : Z) : bool :=
  (0 <=? n) &&
  (let e := Z.log2 n - 52 in
   if e <=? 0 then true else (n mod 2 ^ e =? 0)).

(** [Number.MAX_SAFE_INTEGER + 1]. *)
Definition two53 : Z := 2 ^ 53.

(** Round [a / b] to an integer, to nearest, ties to even. *)
Definition round_half_even (a b : Z) : Z :=
  let q := a / b in
  let r := a mod b in
  if 2 * r <? b then q
  else if b <? 2 * r then q + 1
  else if Z.even q then q else q + 1.

(** [n / d] for two integer-valued numbers with [n >= d >= 1], which is
    how [formatPopulation] uses the division: the exact quotient lies in
    the binade [2 ^ k, 2 ^ (k + 1)) and is rounded to the nearest
    multiple of [2 ^ (k - 52)], ties to even. *)
Definition div (n d : Z) : double :=
  let k := Z.log2 (n / d) in
  let e := k - 52 in
  {| mant := if 0 <=? e then round_half_even n (d * 2 ^ e)
             else round_half_even (n * 2 ^ (- e)) d;
     expo := e |}.

(** [floor (x * 10 ^ f + 1 / 2)]: the integer [N] for which
    [N / 10 ^ f - x] is as close to zero as possible, the larger one
    when there are two. *)
Definition scaled_nearest (f : nat) (x : double) : Z :=
  let p := 10 ^ Z.of_nat f in
  if 0 <=? expo x then p * mant x * 2 ^ expo x
  else (2 * p * mant x + 2 ^ (- expo x)) / 2 ^ (- expo x + 1).

(** [x >= 10 ^ 21]. *)
Definition ge_1e21 (x : double) : bool :=
  if 0 <=? expo x then 10 ^ 21 <=? mant x * 2 ^ expo x
  else 10 ^ 21 * 2 ^ (- expo x) <=? mant x.

(** The decimal digits of a non-negative integer, ["0"] for zero. *)
Definition digits (n : Z) : string :=
  NilZero.string_of_uint (N.to_uint (Z.to_N n)).

Fixpoint zeros (k : nat) : string :=
  match k with
  | O => EmptyString
  | S k' => String "0" (zeros k')
  end.

(** Steps 10 and 11 of [Number.prototype.toFixed]: the digits of [N],
    padded on the left to [f + 1] characters, with a point before the
    last [f] of them; no point when [f = 0]. *)
Definition place_point (f : nat) (N : Z) : string :=
  let m := digits N in
  match f with
  | O => m
  | S _ =>
      let m' := (zeros (S f - String.length m) ++ m)%string in
      let k := String.length m' in
      (substring 0 (k - f) m' ++ "." ++ substring (k - f) f m')%string
  end.

(** [x.toFixed(f)] for a finite [x >= 0].  At [x >= 10 ^ 21] the method
    returns [ToString(x)], an exponent notation that this model does not
    produce: the result is [None] there. *)
Definition toFixed (f : nat) (x : double) : option JSString :=
  if ge_1e21 x then None
  else Some (js (place_point f (scaled_nearest f x))).

(** [n.toString()] for an integer-valued [n] with [|n| < 10 ^ 21]: the
    decimal digits, after a minus sign when [n] is negative.  Larger
    values print in exponent notation, which this model does not produce. *)
Definition toString (n : Z) : option JSString :=
  if 10 ^ 21 <=? Z.abs n then None
  else if n <? 0 then Some (js (String "-" (digits (- n))))
  else Some (js (digits n)).

End Number.

(** ** [formatPopulation] (lines 58-65)

[[
  const formatPopulation = (pop: number) => {
    if (pop >= 1000000) {
      return `${(pop / 1000000).toFixed(1)}M`;
    } else if (pop >= 1000) {
      return `${(pop / 1000).toFixed(0)}K`;
    }
    return pop.toString();
  };
]]
    The argument is an integer-valued number, see [Number.representable];
    the result is [None] where [toFixed] leaves the decimal notation. *)
Definition formatPopulation (pop : Z) : option JSString :=
  if 1000000 <=? pop then
    s ← Number.toFixed 1 (Number.div pop 1000000); Some (s ++ js "M")
  else if 1000 <=? pop then
    s ← Number.toFixed 0 (Number.div pop 1000); Some (s ++ js "K")
  else Number.toString pop.

(** The number of tenths that the M tier prints: the double nearest to
    [pop / 1000000], times ten, rounded to the nearest integer. *)
Definition tenths (pop : Z) : Z :=
  Number.scaled_nearest 1 (Number.div pop 1000000).

(** ** The data model (lines 13-20)

[[
  type Country = {
    name: { common: string; official: string };
    capital?: string[];
    population: number;
    region: string;
    flags: { png: string };
    cca3: string;
  };
]]
    An absent [capital] is [None]. *)
Record Name := { common : JSString; official : JSString }.
Record Flags := { png : JSString }.
Record Country := {
  name : Name;
  capital : option (list JSString);
  population : Z;
  region : JSString;
  flags : Flags;
  cca3 : JSString
}.

(** ** Arrays *)

(** [Array.prototype.filter]: the elements for which the callback returns
    a truthy value, in ascending index order. *)
Definition Array_filter {A} (callback : A -> bool) (arr : list A) : list A :=
  List.filter callback arr.

(** [Array.prototype.sort(comparator)].  The language asks for a stable
    sort and leaves the algorithm to the engine; the model is the stable
    insertion sort.  [comparator x y <= 0] keeps [x] before [y]. *)
Fixpoint insert_by {A} (comparator : A -> A -> Z) (x : A) (sorted : list A)
  : list A :=
  match sorted with
  | [] => [x]
  | y :: rest =>
      if comparator x y <=? 0 then x :: y :: rest
      else y :: insert_by comparator x rest
  end.

Fixpoint Array_sort {A} (comparator : A -> A -> Z) (arr : list A) : list A :=
  match arr with
  | [] => []
  | x :: rest => insert_by comparator x (Array_sort comparator rest)
  end.

(** ** Completions and the component's state *)

Inductive JSError := NetworkError | SyntaxError | TypeError.

(** What the two awaited calls of [load] deliver.  [fetch] rejects or
    resolves to a response; [res.json()] rejects, or resolves to a value
    that the annotation [Country[]] takes for an array of countries.  A
    parsed value that is no array at all (an error object the server sent,
    say) has no [sort] method. *)
Inductive Payload :=
| NotAnArray
| ArrayOf (data : list Country).

Inductive Fetched :=
| FetchRejected
| Responded (body : option Payload).

(** The four [useState] cells of [App] (lines 25-28). *)
Record AppState := {
  countries : list Country;
  loading : bool;
  refreshing : bool;
  query : JSString
}.

(** The cells as [useState] initialises them. *)
Definition initial : AppState :=
  {| countries := []; loading := true; refreshing := false; query := [] |}.

(** The component's state together with what was written to the console. *)
Record World := {
  app : AppState;
  console : list (JSString * JSError)
}.

Inductive Completion (A : Type) :=
| Normal (a : A)
| Throw (e : JSError).
Arguments Normal {A} a.
Arguments Throw {A} e.

(** Computations that read and write the world and may throw. *)
Definition Eff (A : Type) : Type := World -> Completion A * World.

#[global] Instance Eff_ret : MRet Eff := fun A a w => (Normal a, w).
#[global] Instance Eff_bind : MBind Eff := fun A B f m w =>
  match m w with
  | (Normal a, w') => f a w'
  | (Throw e, w') => (Throw e, w')
  end.

Definition throw {A} (e : JSError) : Eff A := fun w => (Throw e, w).

(** [try { body } catch (error) { handler }] *)
Definition try_catch {A} (body : Eff A) (handler : JSError -> Eff A) : Eff A :=
  fun w =>
    match body w with
    | (Normal a, w') => (Normal a, w')
    | (Throw e, w') => handler e w'
    end.

(** [try { body } finally { finalizer }]: the finalizer runs on both
    paths, and the completion of the body is kept unless the finalizer
    throws. *)
Definition try_finally {A} (body : Eff A) (finalizer : Eff unit) : Eff A :=
  fun w =>
    match body w with
    | (c, w') =>
        match finalizer w' with
        | (Normal _, w'') => (c, w'')
        | (Throw e, w'') => (Throw e, w'')
        end
    end.

Definition update (f : AppState -> AppState) : Eff unit :=
  fun w => (Normal tt, {| app := f (app w); console := console w |}).

Definition setCountries (value : list Country) : Eff unit :=
  update (fun st => {| countries := value; loading := loading st;
                       refreshing := refreshing st; query := query st |}).

Definition setLoading (value : bool) : Eff unit :=
  update (fun st => {| countries := countries st; loading := value;
                       refreshing := refreshing st; query := query st |}).

Definition setRefreshing (value : bool) : Eff unit :=
  update (fun st => {| countries := countries st; loading := loading st;
                       refreshing := value; query := query st |}).

Definition setQuery (value : JSString) : Eff unit :=
  update (fun st => {| countries := countries st; loading := loading st;
                       refreshing := refreshing st; query := value |}).

Definition console_error (message : JSString) (error : JSError) : Eff unit :=
  fun w => (Normal tt, {| app := app w;
                          console := console w ++ [(message, error)] |}).

(** Line 22. *)
Definition API_BASE : JSString := js "https://restcountries.com/v3.1".

(** [await fetch(url)] and [await res.json()]; [net] is what the network
    delivers for the request. *)
Definition await_fetch (url : JSString) (net : Fetched)
  : Eff (option Payload) :=
  match net with
  | FetchRejected => throw NetworkError
  | Responded body => mret body
  end.

Definition await_json (body : option Payload) : Eff Payload :=
  match body with
  | None => throw SyntaxError
  | Some value => mret value
  end.

(** ["Erro ao carregar países:"] *)
Definition load_error_message : JSString :=
  js "Erro ao carregar pa" ++ [237%N] ++ js "ses:".

Section App.

(** The two string methods of the runtime that the component calls. *)
Variable toLowerCase : JSString -> JSString.
Variable localeCompare : JSString -> JSString -> Z.

(** The comparator of line 36-38:
    [(a, b) => a.name.common.localeCompare(b.name.common)]. *)
Definition by_common_name (a b : Country) : Z :=
  localeCompare (common (name a)) (common (name b)).

(** [data.sort(...)] on the parsed value. *)
Definition sort_data (data : Payload) : Eff (list Country) :=
  match data with
  | NotAnArray => throw TypeError
  | ArrayOf arr => mret (Array_sort by_common_name arr)
  end.

(** [load] (lines 30-46):
[[
  try {
    const res = await fetch(...);
    const data: Country[] = await res.json();
    const sorted = data.sort((a, b) =>
      a.name.common.localeCompare(b.name.common));
    setCountries(sorted);
  } catch (error) {
    console.error("Erro ao carregar países:", error);
  } finally {
    setLoading(false);
    setRefreshing(false);
  }
]]
    [net] is what the network delivers to this call. *)
Definition load (net : Fetched) : Eff unit :=
  try_finally
    (try_catch
       (res ← await_fetch
                (API_BASE
                 ++ js "/all?fields=name,capital,population,region,flags,cca3")
                net;
        data ← await_json res;
        sorted ← sort_data data;
        setCountries sorted)
       (fun error => console_error load_error_message error))
    (setLoading false;; setRefreshing false).

(** The callback of lines 53-55:
    [(c) => c.name.common.toLowerCase().includes(query.toLowerCase())]. *)
Definition name_matches (query : JSString) (c : Country) : bool :=
  includes (toLowerCase (common (name c))) (toLowerCase query).

(** [filtered] (lines 52-56):
[[
  const filtered = query
    ? countries.filter((c) =>
        c.name.common.toLowerCase().includes(query.toLowerCase()))
    : countries;
]] *)
Definition filtered (countries : list Country) (query : JSString)
  : list Country :=
  if truthy query then Array_filter (name_matches query) countries
  else countries.

End App.

(** ** Arrays in the heap

    An array is an object: [countries.filter(...)] allocates a new array
    and leaves its receiver alone, while [data.sort(...)] rearranges its
    receiver in place and returns that same reference.  The heap maps the
    references to the arrays' contents. *)
Module Heap.

Abbreviation heap := (gmap nat (list Country)).

Definition contents (h : heap) (r : nat) : list Country :=
  default [] (h !! r).

Definition alloc (arr : list Country) (h : heap) : nat * heap :=
  let r := fresh (dom h) in (r, <[r := arr]> h).

(** [r.filter(callback)] *)
Definition filter (callback : Country -> bool) (r : nat) (h : heap)
  : nat * heap :=
  alloc (Array_filter callback (contents h r)) h.

(** [r.sort(comparator)] *)
Definition sort (comparator : Country -> Country -> Z) (r : nat) (h : heap)
  : nat * heap :=
  (r, <[r := Array_sort comparator (contents h r)]> h).

(** [filtered] (lines 52-56) on references: with an empty query the
    result is the reference [countries] itself. *)
Definition filtered (toLowerCase : JSString -> JSString)
  (countries : nat) (query : JSString) (h : heap) : nat * heap :=
  if truthy query then filter (name_matches toLowerCase query) countries h
  else (countries, h).

End Heap.

(** ** Records at run time

    The type annotations are erased: what the state holds are the objects
    that [res.json()] built.  [value_of_country] is the object that the
    type [Country] (lines 13-20) describes. *)
#[warnings="-register-all"]
Inductive JSValue :=
| VNumber (n : Z)
| VString (s : JSString)
| VArray (items : list JSValue)
| VObject (props : list (string * JSValue)).

Fixpoint assoc (key : string) (props : list (string * JSValue))
  : option JSValue :=
  match props with
  | [] => None
  | (k, v) :: rest => if String.eqb key k then Some v else assoc key rest
  end.

(** [v[key]], [None] for [undefined]. *)
Definition property (key : string) (v : JSValue) : option JSValue :=
  match v with
  | VObject props => assoc key props
  | _ => None
  end.

Definition value_of_country (c : Country) : JSValue :=
  VObject
    ([("name"%string,
       VObject [("common"%string, VString (common (name c)));
                ("official"%string, VString (official (name c)))])]
     ++ match capital c with
        | None => []
        | Some names => [("capital"%string, VArray (List.map VString names))]
        end
     ++ [("population"%string, VNumber (population c));
         ("region"%string, VString (region c));
         ("flags"%string, VObject [("png"%string, VString (png (flags c)))]);
         ("cca3"%string, VString (cca3 c))]).

Definition is_string (v : option JSValue) : bool :=
  match v with Some (VString _) => true | _ => false end.

Definition is_number (v : option JSValue) : bool :=
  match v with Some (VNumber _) => true | _ => false end.

Definition is_array (v : option JSValue) : bool :=
  match v with Some (VArray _) => true | _ => false end.

(** The shape of the remote JSON: nested [name.common], [capital] an array
    or absent, [flags.png], [cca3]. *)
Definition has_raw_shape (v : JSValue) : bool :=
  match property "name" v, property "flags" v with
  | Some nm, Some fl =>
      is_string (property "common" nm) && is_string (property "official" nm)
      && match property "capital" v with
         | None => true
         | Some (VArray _) => true
         | Some _ => false
         end
      && is_number (property "population" v)
      && is_string (property "region" v)
      && is_string (property "png" fl)
      && is_string (property "cca3" v)
  | _, _ => false
  end.

(** ** The specification's vocabulary *)

Module Spec.

(** Modelled from the spec: the internal Country shape of the data model,
    with the fields [commonName], [capitalNames], [population], [region],
    [flagImageUrl] and [countryCode]; the source has no such type. *)
Record Country := {
  commonName : JSString;
  capitalNames : list JSString;
  population : Z;
  region : JSString;
  flagImageUrl : JSString;
  countryCode : JSString
}.

End Spec.

(** Modelled from the spec: normalization, the mapping of the raw remote
    shape into the internal shape; the source has no such function.  An
    absent [capital] becomes the empty sequence. *)
Definition normalize (raw : Country) : Spec.Country :=
  {| Spec.commonName := common (name raw);
     Spec.capitalNames := default [] (capital raw);
     Spec.population := population raw;
     Spec.region := region raw;
     Spec.flagImageUrl := png (flags raw);
     Spec.countryCode := cca3 raw |}.

(** Modelled from the spec: an object of the internal shape carries the
    six fields of [Spec.Country]. *)
Definition has_internal_shape (v : JSValue) : bool :=
  is_string (property "commonName" v)
  && is_array (property "capitalNames" v)
  && is_number (property "population" v)
  && is_string (property "region" v)
  && is_string (property "flagImageUrl" v)
  && is_string (property "countryCode" v).

(** Modelled from the spec: the comparison of two normalized records by
    [commonName]. *)
Definition by_commonName (localeCompare : JSString -> JSString -> Z)
  (a b : Spec.Country) : Z :=
  localeCompare (Spec.commonName a) (Spec.commonName b).

(** [t] occurs in [s] as a substring. *)
Definition occurs_in (t s : JSString) : Prop :=
  exists before after, s = before ++ t ++ after.

(** [fullName] contains [q] when case is ignored: the lower-cased query
    occurs in the lower-cased name. *)
Definition contains_ignoring_case (toLowerCase : JSString -> JSString)
  (fullName q : JSString) : Prop :=
  occurs_in (toLowerCase q) (toLowerCase fullName).

(** [a] does not come after [b] in the order of [localeCompare]. *)
Definition name_le (localeCompare : JSString -> JSString -> Z)
  (a b : Country) : Prop :=
  by_common_name localeCompare a b <= 0.

(** A comparison never puts each of two strings after the other. *)
Definition total_order_like (compare : JSString -> JSString -> Z) : Prop :=
  forall a b, 0 < compare a b -> compare b a <= 0.

(** The response of a fetch that succeeds. *)
Definition success (data : list Country) : Fetched :=
  Responded (Some (ArrayOf data)).

(** The fetch fails: the network call rejects, the body is not JSON, or
    the JSON is not an array. *)
Definition failed (net : Fetched) : bool :=
  match net with
  | Responded (Some (ArrayOf _)) => false
  | _ => true
  end.

(** The world of a component that was just mounted. *)
Definition first_load : World := {| app := initial; console := [] |}.

(** The records that a successful load stores all have the internal
    shape. *)
Definition stores_internal_shape (localeCompare : JSString -> JSString -> Z)
  (data : list Country) (w : World) : Prop :=
  forall w', load localeCompare (success data) w = (Normal tt, w') ->
  forall c, In c (countries (app w')) ->
            has_internal_shape (value_of_country c) = true.

(** [N] tenths are a nearest multiple of one tenth to [n / 1000000]. *)
Definition nearest_tenths (n N : Z) : Prop :=
  Z.abs (100000 * N - n) <= 50000.

(** [N] is a nearest integer to [n / 1000]. *)
Definition nearest_thousands (n N : Z) : Prop :=
  Z.abs (1000 * N - n) <= 500.

(** The three tiers at [n], the rounding being to a nearest value. *)
Definition formats_in_tiers (n : Z) : Prop :=
  (1000000 <= n ->
   exists N, nearest_tenths n N /\
     formatPopulation n = Some (js (Number.place_point 1 N) ++ js "M")) /\
  (1000 <= n < 1000000 ->
   exists N, nearest_thousands n N /\
     formatPopulation n = Some (js (Number.digits N) ++ js "K")) /\
  (0 <= n < 1000 -> formatPopulation n = Some (js (Number.digits n))).

(** A shown entry: it passes the test of [filtered] for [query]. *)
Definition shown (toLowerCase : JSString -> JSString) (query : JSString)
  (c : Country) : bool :=
  if truthy query then name_matches toLowerCase query c else true.

(** ** Sample data *)

Definition country (commonName code : string) (cap : option (list JSString))
  (pop : Z) : Country :=
  {| name := {| common := js commonName; official := js commonName |};
     capital := cap;
     population := pop;
     region := js "Nowhere";
     flags := {| png := js "https://flags.example/x.png" |};
     cca3 := js code |}.

Definition Zedland : Country :=
  country "Zedland" "ZED" (Some [js "Zed City"]) 1500000.
Definition Aland : Country :=
  country "Aland" "ALA" (Some [js "Mariehamn"]) 999999.
Definition Antarctica : Country :=
  country "Antarctica" "ATA" None 1000.

(** A heap with one array, at reference 0. *)
Definition sample_heap : Heap.heap := {[ 0%nat := [Zedland; Aland] ]}.

(** ** The screen (lines 67-122) *)

(** ["Sem capital"] *)
Definition no_capital : JSString := js "Sem capital".

(** [item.capital?.[0] || "Sem capital"] (line 108): the first capital,
    unless [capital] is absent, is empty, or starts with the empty
    string. *)
Definition capital_text (item : Country) : JSString :=
  match capital item with
  | None => no_capital
  | Some [] => no_capital
  | Some (first :: _) => if truthy first then first else no_capital
  end.

(** [keyExtractor] (line 92). *)
Definition keyExtractor (item : Country) : JSString := cca3 item.

(** What [renderItem] (lines 98-118) puts on a card, with the key that
    the list gives it. *)
Record Card := {
  card_key : JSString;
  flag_uri : JSString;
  country_name : JSString;
  capital_line : JSString;
  population_line : option JSString;
  region_line : JSString
}.

(** The emoji of lines 79, 112 and 114, each a surrogate pair, with the
    space that follows them. *)
Definition globe_title_prefix : JSString := [55356; 57101; 32]%N.
Definition people_prefix : JSString := [55357; 56421; 32]%N.
Definition globe_prefix : JSString := [55356; 57102; 32]%N.

Definition renderItem (item : Country) : Card :=
  {| card_key := keyExtractor item;
     flag_uri := png (flags item);
     country_name := common (name item);
     capital_line := capital_text item;
     population_line :=
       s ← formatPopulation (population item); Some (people_prefix ++ s);
     region_line := globe_prefix ++ region item |}.

(** What [App] returns: the loading screen (lines 67-74) or the list
    screen (lines 76-121).  A [FlatList] shows one row per element of
    [data], and its [ListEmptyComponent] when [data] is empty. *)
Inductive Screen :=
| LoadingScreen (message : JSString)
| ListScreen (headerTitle headerSubtitle : JSString)
    (placeholder inputValue : JSString)
    (rows : list Card) (emptyText : option JSString).

(** ["Carregando países..."], ["Países do Mundo"], [" países"],
    ["Buscar país..."] and ["Nenhum país encontrado."] *)
Definition loading_message : JSString :=
  js "Carregando pa" ++ [237%N] ++ js "ses...".
Definition header_title : JSString :=
  globe_title_prefix ++ js "Pa" ++ [237%N] ++ js "ses do Mundo".
Definition countries_suffix : JSString := js " pa" ++ [237%N] ++ js "ses".
Definition search_placeholder : JSString :=
  js "Buscar pa" ++ [237%N] ++ js "s...".
Definition empty_message : JSString :=
  js "Nenhum pa" ++ [237%N] ++ js "s encontrado.".

(** The [FlatList] of lines 90-119 on [data]. *)
Definition FlatList (data : list Country) : list Card * option JSString :=
  (List.map renderItem data,
   match data with
   | [] => Some empty_message
   | _ :: _ => None
   end).

(** The value of [App] (lines 24-122) for the state [st]. *)
Definition App (toLowerCase : JSString -> JSString) (st : AppState)
  : Screen :=
  if loading st then LoadingScreen loading_message
  else
    let list := FlatList (filtered toLowerCase (countries st) (query st)) in
    ListScreen header_title
      (js (Number.digits (Z.of_nat (length (countries st))))
       ++ countries_suffix)
      search_placeholder (query st)
      list.1 list.2.

(** The rows and the empty text of a screen; the loading screen has
    neither. *)
Definition screen_rows (s : Screen) : list Card :=
  match s with
  | LoadingScreen _ => []
  | ListScreen _ _ _ _ rows _ => rows
  end.

Definition screen_empty_text (s : Screen) : option JSString :=
  match s with
  | LoadingScreen _ => None
  | ListScreen _ _ _ _ _ emptyText => emptyText
  end.

(** ** Events

    [load] is started by the effect of lines 48-50 and by [onRefresh]
    (line 93); all it does to the state happens after its last [await],
    in one step, when the fetch settles.  [onChangeText] (line 86) is
    [setQuery]. *)
Inductive Event :=
| LoadSettles (net : Fetched)
| ChangeText (text : JSString).

Definition handle (localeCompare : JSString -> JSString -> Z) (e : Event)
  : Eff unit :=
  match e with
  | LoadSettles net => load localeCompare net
  | ChangeText text => setQuery text
  end.

(** The world after the events, oldest first. *)
Definition run (localeCompare : JSString -> JSString -> Z)
  (events : list Event) (w : World) : World :=
  fold_left (fun w e => (handle localeCompare e w).2) events w.

(** The response of the last load that succeeded, if any. *)
Fixpoint last_success (events : list Event) (earlier : option (list Country))
  : option (list Country) :=
  match events with
  | [] => earlier
  | LoadSettles (Responded (Some (ArrayOf data))) :: rest =>
      last_success rest (Some data)
  | _ :: rest => last_success rest earlier
  end.

(** The text typed last, [earlier] when nothing was typed. *)
Fixpoint last_text (events : list Event) (earlier : JSString) : JSString :=
  match events with
  | [] => earlier
  | ChangeText text :: rest => last_text rest text
  | _ :: rest => last_text rest earlier
  end.

(** The number of loads that failed. *)
Fixpoint failed_loads (events : list Event) : nat :=
  match events with
  | [] => 0
  | LoadSettles net :: rest =>
      (if failed net then 1 else 0) + failed_loads rest
  | _ :: rest => failed_loads rest
  end.

(** Some load has settled. *)
Fixpoint some_load (events : list Event) : bool :=
  match events with
  | [] => false
  | LoadSettles _ :: _ => true
  | _ :: rest => some_load rest
  end.

(** ** More vocabulary *)

(** The order of [localeCompare] is transitive. *)
Definition transitive_like (compare : JSString -> JSString -> Z) : Prop :=
  forall a b c, compare a b <= 0 -> compare b c <= 0 -> compare a c <= 0.

(** Comparing equal is an equivalence. *)
Definition equal_names_like (compare : JSString -> JSString -> Z) : Prop :=
  forall a b k, compare a k = 0 -> compare b k = 0 -> compare a b = 0.

(** The entries whose name compares equal to that of [k]. *)
Definition same_name_as (localeCompare : JSString -> JSString -> Z)
  (k : Country) (c : Country) : bool :=
  by_common_name localeCompare c k =? 0.

(** What a load writes to the console: one entry with the error that
    made it fail, nothing when it succeeds. *)
Definition logged (net : Fetched) : list (JSString * JSError) :=
  match net with
  | FetchRejected => [(load_error_message, NetworkError)]
  | Responded None => [(load_error_message, SyntaxError)]
  | Responded (Some NotAnArray) => [(load_error_message, TypeError)]
  | Responded (Some (ArrayOf _)) => []
  end.

(** What the events write to the console. *)
Fixpoint log_of (events : list Event) : list (JSString * JSError) :=
  match events with
  | [] => []
  | LoadSettles net :: rest => logged net ++ log_of rest
  | ChangeText _ :: rest => log_of rest
  end.

(** ** More sample data *)

Definition sample_events : list Event :=
  [ChangeText (js "z"); LoadSettles (success [Zedland; Aland]);
   LoadSettles FetchRejected; ChangeText (js "land")].

Definition sample_state : AppState :=
  {| countries := [Aland; Antarctica; Zedland];
     loading := false; refreshing := false; query := js "LAND" |}.

(** * Proofs *)

(** ** Facts about the number model *)

Module NumberFacts.
Import Number.

(** The rounded quotient is within half a unit of the exact one. *)
Lemma round_half_even_near (a b : Z) :
  0 < b -> 2 * Z.abs (round_half_even a b * b - a) <= b.
Proof.
  intros Hb. unfold round_half_even.
  pose proof (Z.div_mod a b ltac:(lia)) as Hdm.
  pose proof (Z.mod_pos_bound a b Hb) as Hr.
  destruct (2 * (a mod b) <? b) eqn:E1; [apply Z.ltb_lt in E1; nia|].
  apply Z.ltb_ge in E1.
  destruct (b <? 2 * (a mod b)) eqn:E2; [apply Z.ltb_lt in E2; nia|].
  apply Z.ltb_ge in E2.
  destruct (Z.even (a / b)); nia.
Qed.

(** An exact quotient is not changed by the rounding. *)
Lemma round_half_even_exact (c b : Z) :
  0 < b -> round_half_even (c * b) b = c.
Proof.
  intros Hb. unfold round_half_even.
  rewrite Z.div_mul by lia. rewrite Z.mod_mul by lia.
  destruct (2 * 0 <? b) eqn:E; [reflexivity|apply Z.ltb_ge in E; lia].
Qed.

(** The shape of [div n d] when the quotient is below [2 ^ 52]: the
    exponent is negative and the significand is the scaled quotient,
    rounded. *)
Lemma div_small (n d : Z) :
  0 < d -> d <= n -> n / d < 2 ^ 52 ->
  let s := 52 - Z.log2 (n / d) in
  0 < s <= 52 /\
  div n d = {| mant := round_half_even (n * 2 ^ s) d; expo := - s |}.
Proof.
  intros Hd Hn Hq s.
  assert (H1 : 1 <= n / d) by (apply Z.div_le_lower_bound; lia).
  assert (Hk : 0 <= Z.log2 (n / d) < 52).
  { split; [apply Z.log2_nonneg|]. apply Z.log2_lt_pow2; lia. }
  split; [subst s; lia|].
  unfold div. cbv zeta.
  replace (0 <=? Z.log2 (n / d) - 52) with false
    by (symmetry; apply Z.leb_gt; lia).
  f_equal; [|subst s; lia].
  f_equal. f_equal. f_equal. subst s. lia.
Qed.

Lemma scaled_nearest_neg (f : nat) (m s : Z) :
  0 < s ->
  scaled_nearest f {| mant := m; expo := - s |} =
  (2 * 10 ^ Z.of_nat f * m + 2 ^ s) / (2 * 2 ^ s).
Proof.
  intros Hs. unfold scaled_nearest. cbn [expo mant].
  replace (0 <=? - s) with false by (symmetry; apply Z.leb_gt; lia).
  rewrite Z.opp_involutive.
  rewrite Z.pow_add_r by lia. rewrite Z.pow_1_r.
  f_equal. lia.
Qed.

Lemma ge_1e21_neg (m s : Z) :
  0 < s -> m < 10 ^ 21 * 2 ^ s ->
  ge_1e21 {| mant := m; expo := - s |} = false.
Proof.
  intros Hs Hm. unfold ge_1e21. cbn [expo mant].
  replace (0 <=? - s) with false by (symmetry; apply Z.leb_gt; lia).
  rewrite Z.opp_involutive. apply Z.leb_gt. exact Hm.
Qed.

(** Every safe integer is a number. *)
Lemma safe_representable (n : Z) :
  0 <= n < two53 -> representable n = true.
Proof.
  unfold two53, representable. intros Hn.
  replace (0 <=? n) with true by (symmetry; apply Z.leb_le; lia).
  cbn [andb]. cbv zeta.
  destruct (Z.eq_dec n 0) as [->|Hn0]; [reflexivity|].
  assert (Z.log2 n < 53) by (apply Z.log2_lt_pow2; lia).
  replace (Z.log2 n - 52 <=? 0) with true by (symmetry; apply Z.leb_le; lia).
  reflexivity.
Qed.

End NumberFacts.

(** ** The three tiers of [formatPopulation] *)

Section Tiers.
Import Number NumberFacts.

(** Below one thousand the number is printed as it is. *)
Lemma formatPopulation_plain (n : Z) :
  0 <= n < 1000 -> formatPopulation n = Some (js (digits n)).
Proof.
  intros Hn. unfold formatPopulation.
  replace (1000000 <=? n) with false by (symmetry; apply Z.leb_gt; lia).
  replace (1000 <=? n) with false by (symmetry; apply Z.leb_gt; lia).
  unfold toString.
  replace (10 ^ 21 <=? Z.abs n) with false by (symmetry; apply Z.leb_gt; lia).
  replace (n <? 0) with false by (symmetry; apply Z.ltb_ge; lia).
  reflexivity.
Qed.

(** In the K tier the quotient by one thousand is rounded to the nearest
    integer, a half going up. *)
Lemma formatPopulation_K (n : Z) :
  1000 <= n < 1000000 ->
  formatPopulation n = Some (js (digits ((n + 500) / 1000)) ++ js "K").
Proof.
  intros Hn. unfold formatPopulation.
  replace (1000000 <=? n) with false by (symmetry; apply Z.leb_gt; lia).
  replace (1000 <=? n) with true by (symmetry; apply Z.leb_le; lia).
  assert (Hq : n / 1000 < 2 ^ 10).
  { apply Z.div_lt_upper_bound; lia. }
  assert (Hq1 : 1 <= n / 1000) by (apply Z.div_le_lower_bound; lia).
  destruct (div_small n 1000) as [Hs Hdiv]; [lia|lia|lia|].
  assert (Hk : Z.log2 (n / 1000) < 10) by (apply Z.log2_lt_pow2; lia).
  set (s := 52 - Z.log2 (n / 1000)) in *.
  rewrite Hdiv. clear Hdiv.
  set (m := round_half_even (n * 2 ^ s) 1000).
  assert (Hm : 2 * Z.abs (m * 1000 - n * 2 ^ s) <= 1000)
    by (apply round_half_even_near; lia).
  assert (HP : 2 ^ s = 2 * 2 ^ (s - 1)).
  { rewrite <- Z.pow_succ_r by lia. f_equal. lia. }
  assert (HP1 : 2 ^ 42 <= 2 ^ (s - 1)) by (apply Z.pow_le_mono_r; lia).
  assert (HP2 : 2 ^ 42 = 4398046511104) by reflexivity.
  unfold toFixed.
  rewrite ge_1e21_neg by (try lia; nia).
  cbn [mbind option_bind]. f_equal. f_equal.
  unfold place_point. f_equal.
  rewrite scaled_nearest_neg by lia.
  change (10 ^ Z.of_nat 0) with 1.
  set (P := 2 ^ s) in *. set (P' := 2 ^ (s - 1)) in *.
  pose proof (Z.div_mod (n + 500) 1000 ltac:(lia)) as Hdm.
  pose proof (Z.mod_pos_bound (n + 500) 1000 ltac:(lia)) as Hr.
  set (R := (n + 500) / 1000) in *. set (r := (n + 500) mod 1000) in *.
  enough (HN : (2 * 1 * m + P) / (2 * P) = R) by (rewrite HN; reflexivity).
  destruct (Z.eq_dec r 0) as [Hr0|Hr0].
  - (* a half: the division is exact and the half goes up *)
    assert (Hexact : m = R * P - P').
    { subst m. replace (n * P) with ((R * P - P') * 1000) by lia.
      apply round_half_even_exact. lia. }
    rewrite Hexact.
    replace (2 * 1 * (R * P - P') + P) with (R * (2 * P)) by lia.
    apply Z.div_mul. lia.
  - symmetry. apply Z.div_unique with (r := 2 * 1 * m + P - 2 * P * R).
    + left. split; nia.
    + lia.
Qed.

(** In the M tier, for safe integers, the printed tenths are a nearest
    multiple of one tenth to the exact quotient [n / 1000000]: they are
    at most half a tenth away from it. *)
Lemma formatPopulation_M (n : Z) :
  1000000 <= n < two53 ->
  formatPopulation n = Some (js (place_point 1 (tenths n)) ++ js "M") /\
  Z.abs (100000 * tenths n - n) <= 50000.
Proof.
  unfold two53. intros Hn.
  assert (H53 : 2 ^ 53 = 9007199254740992) by reflexivity.
  assert (Hq : n / 1000000 < 2 ^ 34).
  { apply Z.div_lt_upper_bound; [lia|]. change (2 ^ 34) with 17179869184. lia. }
  assert (Hq1 : 1 <= n / 1000000) by (apply Z.div_le_lower_bound; lia).
  destruct (div_small n 1000000) as [Hs Hdiv]; [lia|lia|lia|].
  assert (Hk : Z.log2 (n / 1000000) < 34) by (apply Z.log2_lt_pow2; lia).
  unfold tenths, formatPopulation.
  replace (1000000 <=? n) with true by (symmetry; apply Z.leb_le; lia).
  set (s := 52 - Z.log2 (n / 1000000)) in *.
  rewrite Hdiv. clear Hdiv.
  set (m := round_half_even (n * 2 ^ s) 1000000).
  assert (Hm : 2 * Z.abs (m * 1000000 - n * 2 ^ s) <= 1000000)
    by (apply round_half_even_near; lia).
  assert (HP1 : 2 ^ 19 <= 2 ^ s) by (apply Z.pow_le_mono_r; lia).
  assert (HP2 : 2 ^ 19 = 524288) by reflexivity.
  set (P := 2 ^ s) in *.
  assert (HnP : n * P <= 9007199254740992 * P) by nia.
  unfold toFixed.
  rewrite ge_1e21_neg by (try lia; fold P; lia).
  cbn [mbind option_bind]. split; [reflexivity|].
  rewrite scaled_nearest_neg by lia. fold P.
  change (10 ^ Z.of_nat 1) with 10.
  pose proof (Z.div_mod (2 * 10 * m + P) (2 * P) ltac:(lia)) as Hdm.
  pose proof (Z.mod_pos_bound (2 * 10 * m + P) (2 * P) ltac:(lia)) as Hr.
  set (N := (2 * 10 * m + P) / (2 * P)) in *.
  set (r := (2 * 10 * m + P) mod (2 * P)) in *.
  assert (Hup : (100000 * N - n - 50000) * P <= 500000) by nia.
  assert (Hlo : (n - 50000 - 100000 * N) * P < 500000) by nia.
  apply Z.abs_le. split; nia.
Qed.

End Tiers.


(** ** Substrings *)

Lemma starts_with_prefix (t s : JSString) :
  starts_with t s = true <-> exists rest, s = t ++ rest.
Proof.
  revert s. induction t as [|a t IH]; intros s; simpl.
  - split; [intros _; exists s; reflexivity|reflexivity].
  - destruct s as [|b s].
    + split; [discriminate|intros [rest H]; discriminate].
    + rewrite andb_true_iff, N.eqb_eq, IH. split.
      * intros [-> [rest ->]]. exists rest. reflexivity.
      * intros [rest H]. injection H as -> ->. split; [reflexivity|].
        exists rest. reflexivity.
Qed.

(** [includes] finds exactly the substrings. *)
Lemma includes_occurs_in (s t : JSString) :
  includes s t = true <-> occurs_in t s.
Proof.
  unfold occurs_in. induction s as [|x s IH]; simpl.
  - rewrite orb_false_r, starts_with_prefix. split.
    + intros [rest H]. exists [], rest. exact H.
    + intros [[|y before] [after H]]; [exists after; exact H|discriminate].
  - rewrite orb_true_iff, starts_with_prefix, IH. split.
    + intros [[rest H]|[before [after H]]].
      * exists [], rest. exact H.
      * exists (x :: before), after. rewrite H. reflexivity.
    + intros [[|y before] [after H]].
      * left. exists after. exact H.
      * right. injection H as -> ->. exists before, after. reflexivity.
Qed.

(** ** [filtered] *)

Section FilteredFacts.

Variable toLowerCase : JSString -> JSString.

Lemma name_matches_contains (q : JSString) (c : Country) :
  name_matches toLowerCase q c = true <->
  contains_ignoring_case toLowerCase (common (name c)) q.
Proof. unfold name_matches, contains_ignoring_case. apply includes_occurs_in. Qed.

(** [filtered] keeps the entries that are [shown], whatever the query. *)
Lemma filtered_shown (C : list Country) (q : JSString) :
  filtered toLowerCase C q = List.filter (shown toLowerCase q) C.
Proof.
  unfold filtered, shown, Array_filter. destruct (truthy q); [reflexivity|].
  induction C as [|c C IH]; simpl; [reflexivity|]. rewrite <- IH. reflexivity.
Qed.

Lemma filter_sublist {A} (p : A -> bool) (l : list A) :
  sublist (List.filter p l) l.
Proof.
  induction l as [|x l IH]; simpl; [constructor|].
  destruct (p x); constructor; exact IH.
Qed.

(** C1: for a non-empty query, the entries of [filtered C q] are exactly
    the entries of [C] whose common name contains [q] when case is
    ignored: each result is a member of [C] and its name contains the
    query, and no other entry of [C] is left out or let in. *)
Theorem filtered_nonempty_query (C : list Country) (q : JSString) :
  q <> [] ->
  forall c, In c (filtered toLowerCase C q) <->
            In c C /\ contains_ignoring_case toLowerCase (common (name c)) q.
Proof.
  intros Hq c. unfold filtered.
  destruct q as [|x q]; [contradiction|]. cbn [truthy].
  unfold Array_filter. rewrite filter_In, name_matches_contains. reflexivity.
Qed.

(** C2: with the empty query, [filtered] is the collection itself, the
    same entries in the same order; in the heap it is the very array that
    was passed in, and the heap is as it was. *)
Theorem filtered_empty_query (C : list Country) :
  filtered toLowerCase C [] = C /\
  forall (h : Heap.heap) (r : nat), Heap.filtered toLowerCase r [] h = (r, h).
Proof. split; reflexivity. Qed.

(** C9: [filtered C q] is the subsequence of [C] made of the shown
    entries, so two shown entries keep their relative order: when [a]
    stands before [b] in [C], the result has [a] before [b], with the
    filtered stretches of [C] around them. *)
Theorem filtered_keeps_order (C : list Country) (q : JSString) :
  sublist (filtered toLowerCase C q) C /\
  filtered toLowerCase C q = List.filter (shown toLowerCase q) C /\
  forall l1 a l2 b l3,
    C = l1 ++ a :: l2 ++ b :: l3 ->
    shown toLowerCase q a = true -> shown toLowerCase q b = true ->
    filtered toLowerCase C q =
    filtered toLowerCase l1 q ++ a ::
    filtered toLowerCase l2 q ++ b :: filtered toLowerCase l3 q.
Proof.
  split; [|split].
  - rewrite filtered_shown. apply filter_sublist.
  - apply filtered_shown.
  - intros l1 a l2 b l3 -> Ha Hb. rewrite !filtered_shown.
    rewrite List.filter_app. cbn [List.filter]. rewrite Ha.
    rewrite List.filter_app. cbn [List.filter]. rewrite Hb. reflexivity.
Qed.

End FilteredFacts.

(** ** [filtered] in the heap *)

Section HeapFacts.

Variable toLowerCase : JSString -> JSString.

Lemma alloc_fresh (arr : list Country) (h : Heap.heap) :
  (Heap.alloc arr h).1 ∉ dom h.
Proof. unfold Heap.alloc. cbn [fst]. apply is_fresh. Qed.

(** An allocation leaves every array that was there as it was. *)
Lemma alloc_frame (arr : list Country) (h : Heap.heap) (r : nat) :
  r ∈ dom h -> (Heap.alloc arr h).2 !! r = h !! r.
Proof.
  intros Hr. unfold Heap.alloc. cbn [snd].
  apply lookup_insert_ne. intros E. rewrite <- E in Hr.
  revert Hr. apply is_fresh.
Qed.

Lemma alloc_contents (arr : list Country) (h : Heap.heap) :
  Heap.contents (Heap.alloc arr h).2 (Heap.alloc arr h).1 = arr.
Proof.
  unfold Heap.alloc, Heap.contents. cbn [fst snd].
  rewrite lookup_insert_eq. reflexivity.
Qed.

Lemma filtered_frame (h : Heap.heap) (C : nat) (q : JSString) (r : nat) :
  r ∈ dom h -> (Heap.filtered toLowerCase C q h).2 !! r = h !! r.
Proof.
  intros Hr. unfold Heap.filtered, Heap.filter.
  destruct (truthy q); [apply alloc_frame; exact Hr|reflexivity].
Qed.

(** The array that [Heap.filtered] returns holds what [filtered] computes
    from the contents of its argument. *)
Lemma filtered_contents (h : Heap.heap) (C : nat) (q : JSString) :
  Heap.contents (Heap.filtered toLowerCase C q h).2
                (Heap.filtered toLowerCase C q h).1 =
  filtered toLowerCase (Heap.contents h C) q.
Proof.
  unfold Heap.filtered, Heap.filter, filtered.
  destruct (truthy q); [apply alloc_contents|reflexivity].
Qed.

(** C8: [filtered] does not write to the heap it reads.  Every array that
    exists before the call, the collection [C] among them, has the same
    contents after it, and a second call with the same [C] and [q]
    returns an array with the same contents as the first; both hold what
    [filtered] computes from the contents of [C]. *)
Theorem filtered_is_pure (h : Heap.heap) (C : nat) (q : JSString) :
  C ∈ dom h ->
  let first := Heap.filtered toLowerCase C q h in
  let second := Heap.filtered toLowerCase C q first.2 in
  (forall r, r ∈ dom h -> first.2 !! r = h !! r) /\
  Heap.contents first.2 C = Heap.contents h C /\
  Heap.contents first.2 first.1 = filtered toLowerCase (Heap.contents h C) q /\
  Heap.contents second.2 second.1 = Heap.contents first.2 first.1 /\
  Heap.contents second.2 C = Heap.contents h C.
Proof.
  intros HC first second.
  assert (H1 : forall r, r ∈ dom h -> first.2 !! r = h !! r)
    by (intros r Hr; apply filtered_frame; exact Hr).
  assert (HC1 : Heap.contents first.2 C = Heap.contents h C)
    by (unfold Heap.contents; rewrite H1 by exact HC; reflexivity).
  assert (HC' : C ∈ dom first.2).
  { apply elem_of_dom. rewrite H1 by exact HC. apply elem_of_dom. exact HC. }
  repeat split.
  - exact H1.
  - exact HC1.
  - apply filtered_contents.
  - subst second. rewrite filtered_contents, HC1.
    subst first. rewrite filtered_contents. reflexivity.
  - subst second. unfold Heap.contents at 1.
    rewrite filtered_frame by exact HC'. exact HC1.
Qed.

(** In contrast [sort] overwrites its receiver. *)
Lemma sort_writes (h : Heap.heap) (r : nat) (cmp : Country -> Country -> Z) :
  Heap.contents (Heap.sort cmp r h).2 r = Array_sort cmp (Heap.contents h r) /\
  (Heap.sort cmp r h).1 = r.
Proof.
  unfold Heap.sort, Heap.contents. cbn [fst snd].
  rewrite lookup_insert_eq. split; reflexivity.
Qed.

End HeapFacts.

(** ** [Array_sort] *)

Section SortFacts.

Context {A : Type} (comparator : A -> A -> Z).

Let before (a b : A) : Prop := comparator a b <= 0.

Lemma insert_by_Permutation (x : A) (l : list A) :
  Permutation (insert_by comparator x l) (x :: l).
Proof.
  induction l as [|y l IH]; simpl; [reflexivity|].
  destruct (comparator x y <=? 0); [reflexivity|].
  rewrite IH. apply perm_swap.
Qed.

(** Sorting rearranges: nothing is lost, repeated or made up. *)
Lemma Array_sort_Permutation (l : list A) :
  Permutation (Array_sort comparator l) l.
Proof.
  induction l as [|x l IH]; simpl; [reflexivity|].
  rewrite insert_by_Permutation, IH. reflexivity.
Qed.

Lemma Array_sort_In (l : list A) (x : A) :
  In x (Array_sort comparator l) <-> In x l.
Proof.
  split; apply Permutation_in;
    [|symmetry]; apply Array_sort_Permutation.
Qed.

Hypothesis comparator_total : forall a b, 0 < comparator a b -> comparator b a <= 0.

Lemma insert_by_HdRel (x y : A) (l : list A) :
  before y x -> HdRel before y l -> HdRel before y (insert_by comparator x l).
Proof.
  intros Hyx Hl. destruct l as [|z l]; simpl.
  - constructor. exact Hyx.
  - destruct (comparator x z <=? 0); constructor; [exact Hyx|].
    inversion Hl; assumption.
Qed.

Lemma insert_by_Sorted (x : A) (l : list A) :
  Sorted before l -> Sorted before (insert_by comparator x l).
Proof.
  induction l as [|y l IH]; intros Hl; simpl.
  - repeat constructor.
  - destruct (comparator x y <=? 0) eqn:E.
    + apply Z.leb_le in E. constructor; [exact Hl|]. constructor. exact E.
    + apply Z.leb_gt in E. inversion Hl as [|? ? Hs Hh]; subst.
      constructor; [apply IH; exact Hs|].
      apply insert_by_HdRel; [|exact Hh].
      apply comparator_total. lia.
Qed.

Lemma Array_sort_Sorted (l : list A) : Sorted before (Array_sort comparator l).
Proof.
  induction l as [|x l IH]; simpl; [constructor|].
  apply insert_by_Sorted. exact IH.
Qed.

(** In a sorted list each entry is in order with the next one. *)
Lemma Sorted_adjacent (R : A -> A -> Prop) (l : list A) :
  Sorted R l ->
  forall (i : nat) (a b : A), l !! i = Some a -> l !! S i = Some b -> R a b.
Proof.
  induction 1 as [|x l Hs IH Hh]; intros i a b Ha Hb; [discriminate|].
  destruct i as [|i]; simpl in Ha, Hb.
  - injection Ha as <-. destruct l as [|y l]; [discriminate|].
    injection Hb as <-. inversion Hh; assumption.
  - eapply IH; eassumption.
Qed.

Lemma Array_sort_adjacent (l : list A) (i : nat) (a b : A) :
  Array_sort comparator l !! i = Some a ->
  Array_sort comparator l !! S i = Some b ->
  comparator a b <= 0.
Proof. apply (Sorted_adjacent before). apply Array_sort_Sorted. Qed.

(** The sort is stable: entries that compare equal to [k] keep the order
    they had, provided that comparing equal is an equivalence. *)
Lemma Array_sort_stable (k : A) (l : list A) :
  (forall x y, comparator x k = 0 -> comparator y k = 0 -> comparator x y = 0) ->
  List.filter (fun x => comparator x k =? 0) (Array_sort comparator l) =
  List.filter (fun x => comparator x k =? 0) l.
Proof.
  intros Heq. induction l as [|x l IH]; simpl; [reflexivity|].
  rewrite <- IH. generalize (Array_sort comparator l) as s. clear IH.
  induction s as [|y s IH]; simpl; [reflexivity|].
  destruct (comparator x y <=? 0) eqn:E; simpl; [reflexivity|].
  rewrite IH. apply Z.leb_gt in E.
  destruct (comparator x k =? 0) eqn:Ex; [|reflexivity].
  destruct (comparator y k =? 0) eqn:Ey; [|reflexivity].
  apply Z.eqb_eq in Ex, Ey. specialize (Heq x y Ex Ey). lia.
Qed.

End SortFacts.

(** Sorting the images under [f] is the image of sorting, when the
    comparison only looks at the images. *)
Lemma Array_sort_map {A B : Type} (f : A -> B)
  (cmpA : A -> A -> Z) (cmpB : B -> B -> Z) (l : list A) :
  (forall a b, cmpB (f a) (f b) = cmpA a b) ->
  Array_sort cmpB (List.map f l) = List.map f (Array_sort cmpA l).
Proof.
  intros Hf. induction l as [|x l IH]; simpl; [reflexivity|].
  rewrite IH. generalize (Array_sort cmpA l) as s. clear IH.
  induction s as [|y s IH]; simpl; [reflexivity|].
  rewrite Hf. destruct (cmpA x y <=? 0); simpl; [reflexivity|].
  rewrite IH. reflexivity.
Qed.

(** ** The sample comparison *)

Lemma code_unit_compare_antisym (a b : JSString) :
  code_unit_compare b a = - code_unit_compare a b.
Proof.
  revert b. induction a as [|x a IH]; intros [|y b]; simpl; try reflexivity.
  rewrite (N.compare_antisym x y).
  destruct (x ?= y)%N; simpl; [apply IH|reflexivity|reflexivity].
Qed.

Lemma ascii_localeCompare_total : total_order_like ascii_localeCompare.
Proof.
  intros a b H. unfold ascii_localeCompare in *.
  rewrite code_unit_compare_antisym. lia.
Qed.

(** ** [load] *)

Section LoadFacts.

Variable localeCompare : JSString -> JSString -> Z.

(** A load that succeeds stores the sorted response and clears the two
    flags; nothing is thrown and nothing is logged. *)
Lemma load_success (data : list Country) (w : World) :
  load localeCompare (success data) w =
  (Normal tt,
   {| app := {| countries := Array_sort (by_common_name localeCompare) data;
                loading := false;
                refreshing := false;
                query := query (app w) |};
      console := console w |}).
Proof. reflexivity. Qed.

(** A load that fails logs the error and clears the two flags; the
    collection is not touched and nothing is thrown. *)
Lemma load_failed (net : Fetched) (w : World) :
  failed net = true ->
  exists error,
    load localeCompare net w =
    (Normal tt,
     {| app := {| countries := countries (app w);
                  loading := false;
                  refreshing := false;
                  query := query (app w) |};
        console := console w ++ [(load_error_message, error)] |}).
Proof.
  intros Hnet. destruct net as [|[[|data]|]]; try discriminate.
  - exists NetworkError. reflexivity.
  - exists TypeError. reflexivity.
  - exists SyntaxError. reflexivity.
Qed.

(** C3: a successful load leaves the collection sorted by common name:
    whenever [localeCompare] never puts each of two names after the
    other, every entry of the result compares less than or equal to the
    entry that follows it.  In particular, when [localeCompare] puts
    "Zedland" after "Aland", the response [Zedland, Aland] is stored as
    [Aland, Zedland]. *)
Theorem load_sorts (data : list Country) (w : World) :
  total_order_like localeCompare ->
  exists w',
    load localeCompare (success data) w = (Normal tt, w') /\
    (forall (i : nat) (a b : Country),
        countries (app w') !! i = Some a ->
        countries (app w') !! S i = Some b ->
        name_le localeCompare a b) /\
    (forall z a : Country,
        common (name z) = js "Zedland" -> common (name a) = js "Aland" ->
        0 < localeCompare (js "Zedland") (js "Aland") ->
        data = [z; a] -> countries (app w') = [a; z]).
Proof.
  intros Htotal. eexists. split; [apply load_success|]. cbn [app countries].
  split.
  - intros i a b. apply Array_sort_adjacent.
    intros x y. apply Htotal.
  - intros z a Hz Ha Hza ->. cbn [Array_sort insert_by].
    unfold by_common_name. rewrite Hz, Ha.
    destruct (localeCompare (js "Zedland") (js "Aland") <=? 0) eqn:E;
      [apply Z.leb_le in E; lia|reflexivity].
Qed.

(** C4: a load whose fetch fails completes normally, so that no error
    reaches the caller, and leaves the collection as it was; on the first
    load that is the empty sequence. *)
Theorem load_failure_contained (net : Fetched) (w : World) :
  failed net = true ->
  exists w',
    load localeCompare net w = (Normal tt, w') /\
    countries (app w') = countries (app w) /\
    (app w = initial -> countries (app w') = []).
Proof.
  intros Hnet. destruct (load_failed net w Hnet) as [error Hload].
  eexists. split; [exact Hload|]. cbn [app countries].
  split; [reflexivity|]. intros ->. reflexivity.
Qed.

(** Whatever the network delivers, [load] completes normally. *)
Lemma load_never_throws (net : Fetched) (w : World) :
  exists w', load localeCompare net w = (Normal tt, w').
Proof.
  destruct (failed net) eqn:E.
  - destruct (load_failed net w E) as [error H]. eexists. exact H.
  - destruct net as [|[[|data]|]]; try discriminate.
    eexists. apply load_success.
Qed.

(** C6: a successful load stores a permutation of the response: every
    record of the response is in the collection as often as it is in the
    response, and nothing else is. *)
Theorem load_permutes (data : list Country) (w : World) :
  exists w',
    load localeCompare (success data) w = (Normal tt, w') /\
    Permutation (countries (app w')) data.
Proof.
  eexists. split; [apply load_success|]. cbn [app countries].
  apply Array_sort_Permutation.
Qed.

Lemma value_of_country_raw (c : Country) :
  has_raw_shape (value_of_country c) = true.
Proof. unfold value_of_country. destruct (capital c); reflexivity. Qed.

Lemma value_of_country_not_internal (c : Country) :
  has_internal_shape (value_of_country c) = false.
Proof. unfold value_of_country. destruct (capital c); reflexivity. Qed.

(** C5 (as amended): a successful load stores the records of the response
    as they came, in the raw shape: each stored record is one of the
    records received, unchanged.  The fields of the internal shape are
    read off the stored records: normalizing the stored collection gives
    the normalized response, sorted by [commonName]. *)
Theorem load_stores_raw_records (data : list Country) (w : World) :
  exists w',
    load localeCompare (success data) w = (Normal tt, w') /\
    (forall c, In c (countries (app w')) ->
               In c data /\ has_raw_shape (value_of_country c) = true) /\
    List.map normalize (countries (app w')) =
    Array_sort (by_commonName localeCompare) (List.map normalize data).
Proof.
  eexists. split; [apply load_success|]. cbn [app countries]. split.
  - intros c Hc. split; [|apply value_of_country_raw].
    apply Array_sort_In in Hc. exact Hc.
  - symmetry. apply Array_sort_map. reflexivity.
Qed.

End LoadFacts.

(** ** [formatPopulation] *)

(** C7 (as amended): for every safe integer [0 <= n < 2 ^ 53],
    [formatPopulation n] is [n / 1000000] rounded to a nearest value with
    one decimal, followed by "M", when [n >= 1000000]; [n / 1000] rounded
    to the nearest integer, a half going up, followed by "K", when
    [1000 <= n < 1000000]; and the decimal digits of [n] when [n < 1000].
    In particular 999 gives "999", 1000 gives "1K", 1500000 gives "1.5M",
    1000000 gives "1.0M" and 0 gives "0".  A quotient that is exactly
    half-way between two values with one decimal goes to the one nearer
    to the binary64 quotient: 1150000 and 1050000 both give "1.1M", and
    1250000 gives "1.3M". *)
Theorem formatPopulation_tiers (n : Z) :
  0 <= n < Number.two53 ->
  formats_in_tiers n /\
  (1000 <= n < 1000000 ->
   formatPopulation n =
   Some (js (Number.digits ((n + 500) / 1000)) ++ js "K")) /\
  (formatPopulation 999 = Some (js "999") /\
   formatPopulation 1000 = Some (js "1K") /\
   formatPopulation 1500000 = Some (js "1.5M") /\
   formatPopulation 1000000 = Some (js "1.0M") /\
   formatPopulation 0 = Some (js "0")) /\
  (formatPopulation 1150000 = Some (js "1.1M") /\
   formatPopulation 1050000 = Some (js "1.1M") /\
   formatPopulation 1250000 = Some (js "1.3M")).
Proof.
  intros Hn. split; [|split; [|split]].
  - unfold formats_in_tiers. split; [|split].
    + intros Hm. exists (tenths n).
      destruct (formatPopulation_M n) as [Hout Hnear]; [lia|].
      split; [exact Hnear|exact Hout].
    + intros Hk. exists ((n + 500) / 1000). split.
      * unfold nearest_thousands.
        pose proof (Z.div_mod (n + 500) 1000 ltac:(lia)).
        pose proof (Z.mod_pos_bound (n + 500) 1000 ltac:(lia)).
        lia.
      * apply formatPopulation_K. exact Hk.
    + apply formatPopulation_plain.
  - apply formatPopulation_K.
  - repeat split; vm_compute; reflexivity.
  - repeat split; vm_compute; reflexivity.
Qed.

(** C10: every [n] from 999500 up to 999999 is still in the K tier, where
    its quotient by one thousand rounds up to 1000: the result is "1000K"
    and not "1.0M". *)
Theorem formatPopulation_just_below_million (n : Z) :
  999500 <= n < 1000000 ->
  formatPopulation n = Some (js "1000K") /\
  formatPopulation n <> Some (js "1.0M").
Proof.
  intros Hn.
  assert (H : formatPopulation n = Some (js "1000K")).
  { rewrite formatPopulation_K by lia.
    replace ((n + 500) / 1000) with 1000; [reflexivity|].
    apply Z.div_unique with (r := n + 500 - 1000000); lia. }
  split; [exact H|]. rewrite H. discriminate.
Qed.

(** ** The claims at concrete inputs *)

Lemma filtered_nonempty_query_witness :
  js "LAND" <> [] /\
  (In Aland (filtered ascii_toLowerCase [Zedland; Antarctica; Aland] (js "LAND"))
   <-> In Aland [Zedland; Antarctica; Aland] /\
       contains_ignoring_case ascii_toLowerCase (common (name Aland)) (js "LAND")).
Proof.
  split; [discriminate|].
  apply (filtered_nonempty_query ascii_toLowerCase). discriminate.
Defined.

Lemma filtered_keeps_order_witness :
  shown ascii_toLowerCase (js "land") Zedland = true /\
  shown ascii_toLowerCase (js "land") Aland = true /\
  filtered ascii_toLowerCase [Zedland; Antarctica; Aland] (js "land") =
  [Zedland; Aland].
Proof.
  split; [reflexivity|]. split; [reflexivity|].
  exact (proj2 (proj2 (filtered_keeps_order ascii_toLowerCase
                         [Zedland; Antarctica; Aland] (js "land")))
           [] Zedland [Antarctica] Aland [] eq_refl eq_refl eq_refl).
Defined.

Lemma filtered_is_pure_witness :
  0%nat ∈ dom sample_heap /\
  Heap.contents (Heap.filtered ascii_toLowerCase 0 (js "a") sample_heap).2 0 =
  Heap.contents sample_heap 0.
Proof.
  assert (H : 0%nat ∈ dom sample_heap).
  { apply elem_of_dom. exists [Zedland; Aland]. reflexivity. }
  split; [exact H|].
  apply (filtered_is_pure ascii_toLowerCase sample_heap 0 (js "a") H).
Defined.

Lemma load_sorts_witness :
  total_order_like ascii_localeCompare /\
  0 < ascii_localeCompare (js "Zedland") (js "Aland") /\
  exists w',
    load ascii_localeCompare (success [Zedland; Aland]) first_load
    = (Normal tt, w') /\
    countries (app w') = [Aland; Zedland].
Proof.
  split; [exact ascii_localeCompare_total|]. split; [reflexivity|].
  destruct (load_sorts ascii_localeCompare [Zedland; Aland] first_load
              ascii_localeCompare_total) as [w' [Hload [_ Hexample]]].
  exists w'. split; [exact Hload|].
  apply (Hexample Zedland Aland); reflexivity.
Defined.

Lemma load_failure_contained_witness :
  failed FetchRejected = true /\
  exists w',
    load ascii_localeCompare FetchRejected first_load = (Normal tt, w') /\
    countries (app w') = countries (app first_load) /\
    (app first_load = initial -> countries (app w') = []).
Proof.
  split; [reflexivity|].
  apply (load_failure_contained ascii_localeCompare FetchRejected first_load).
  reflexivity.
Defined.

Lemma load_stores_raw_records_witness :
  exists w',
    load ascii_localeCompare (success [Zedland; Antarctica]) first_load
    = (Normal tt, w') /\
    In Antarctica [Zedland; Antarctica] /\
    has_raw_shape (value_of_country Antarctica) = true.
Proof.
  destruct (load_stores_raw_records ascii_localeCompare
              [Zedland; Antarctica] first_load) as [w' [Hload [Hraw _]]].
  exists w'. split; [exact Hload|]. apply Hraw.
  injection Hload as <-. cbn. left. reflexivity.
Defined.

Lemma formatPopulation_tiers_witness :
  0 <= 1500000 < Number.two53 /\ formats_in_tiers 1500000.
Proof.
  assert (H : 0 <= 1500000 < Number.two53) by (unfold Number.two53; lia).
  split; [exact H|]. apply (formatPopulation_tiers 1500000 H).
Defined.

Lemma formatPopulation_just_below_million_witness :
  999500 <= 999999 < 1000000 /\
  formatPopulation 999999 = Some (js "1000K").
Proof.
  assert (H : 999500 <= 999999 < 1000000) by lia.
  split; [exact H|]. apply (formatPopulation_just_below_million 999999 H).
Defined.

(** ** Where the stated claims stop *)

(** C5 (as stated) fails: the record stored for a country that came
    without a capital is the raw object, not one of the internal shape. *)
Lemma load_does_not_normalize :
  ~ stores_internal_shape ascii_localeCompare [Antarctica] first_load.
Proof.
  intros H.
  specialize (H _ (load_success ascii_localeCompare [Antarctica] first_load)
                Antarctica (or_introl eq_refl)).
  rewrite value_of_country_not_internal in H. discriminate.
Qed.

(** The stored record of a country without a capital still has none. *)
Lemma load_keeps_absent_capital :
  exists w',
    load ascii_localeCompare (success [Antarctica]) first_load
    = (Normal tt, w') /\
    List.map capital (countries (app w')) = [None] /\
    List.map Spec.capitalNames (List.map normalize (countries (app w'))) = [[]].
Proof. eexists. split; [apply load_success|]. split; reflexivity. Qed.

(** C7 (as stated) fails beyond the safe integers: 285097500586749984 is
    a number, its quotient by one million is 285097500586.749984, and
    [formatPopulation] gives "285097500586.8M". *)
Lemma formatPopulation_large_not_nearest :
  Number.representable 285097500586749984 = true /\
  formatPopulation 285097500586749984 = Some (js "285097500586.8M") /\
  ~ formats_in_tiers 285097500586749984.
Proof.
  split; [vm_compute; reflexivity|]. split; [vm_compute; reflexivity|].
  intros [HM _]. destruct HM as [N [Hnear Hout]]; [lia|].
  unfold nearest_tenths in Hnear.
  assert (HN : N = 2850975005867) by lia. subst N.
  vm_compute in Hout. discriminate.
Qed.

(** * Further properties *)

(** ** [load] once more *)

(** The world after any load, in closed form. *)
Lemma load_world (localeCompare : JSString -> JSString -> Z)
  (net : Fetched) (w : World) :
  load localeCompare net w =
  (Normal tt,
   {| app := {| countries :=
                  match net with
                  | Responded (Some (ArrayOf data)) =>
                      Array_sort (by_common_name localeCompare) data
                  | _ => countries (app w)
                  end;
                loading := false;
                refreshing := false;
                query := query (app w) |};
      console := console w ++ logged net |}).
Proof.
  destruct net as [|[[|data]|]]; try reflexivity.
  unfold logged. rewrite app_nil_r. reflexivity.
Qed.

(** X1: however the fetch settles, [load] completes normally with
    [loading] and [refreshing] cleared and the query untouched. *)
Theorem load_settles (localeCompare : JSString -> JSString -> Z)
  (net : Fetched) (w : World) :
  exists w',
    load localeCompare net w = (Normal tt, w') /\
    loading (app w') = false /\
    refreshing (app w') = false /\
    query (app w') = query (app w).
Proof. eexists. split; [apply load_world|]. repeat split. Qed.

(** X2: a load writes to the console exactly when it fails, and then one
    entry: the message of line 41 with the error that was caught, a
    network error for a rejected fetch, a syntax error for a body that
    is not JSON, a type error for JSON that is not an array. *)
Theorem load_logs (localeCompare : JSString -> JSString -> Z)
  (net : Fetched) (w : World) :
  exists w',
    load localeCompare net w = (Normal tt, w') /\
    console w' = console w ++ logged net /\
    (logged net = [] <-> failed net = false) /\
    length (logged net) = (if failed net then 1 else 0)%nat.
Proof.
  eexists. split; [apply load_world|]. split; [reflexivity|].
  destruct net as [|[[|data]|]]; simpl; repeat split; try discriminate;
    reflexivity.
Qed.

(** A list that is in order is left as it is by the sort. *)
Lemma Array_sort_sorted_id {A : Type} (comparator : A -> A -> Z) (l : list A) :
  Sorted (fun a b => comparator a b <= 0) l -> Array_sort comparator l = l.
Proof.
  induction 1 as [|x l Hs IH Hh]; simpl; [reflexivity|].
  rewrite IH. destruct Hh as [|y l Hxy]; simpl; [reflexivity|].
  replace (comparator x y <=? 0) with true
    by (symmetry; apply Z.leb_le; exact Hxy).
  reflexivity.
Qed.

(** X3: a response that is already in the order of [localeCompare] is
    stored as it is.  ([localeCompare] is taken to be total and
    transitive, as a sort needs it; the insertion sort of the model does
    not use that here.) *)
Theorem load_keeps_sorted_response
  (localeCompare : JSString -> JSString -> Z) (data : list Country)
  (w : World) :
  total_order_like localeCompare -> transitive_like localeCompare ->
  Sorted (name_le localeCompare) data ->
  exists w',
    load localeCompare (success data) w = (Normal tt, w') /\
    countries (app w') = data.
Proof.
  intros _ _ Hs. eexists. split; [apply load_world|]. cbn [app countries].
  apply Array_sort_sorted_id. exact Hs.
Qed.

(** X4: entries whose names compare equal to that of [k] are stored in
    the order in which the response had them, provided that
    [localeCompare] is total and transitive and that comparing equal is
    an equivalence. *)
Theorem load_is_stable (localeCompare : JSString -> JSString -> Z)
  (data : list Country) (w : World) (k : Country) :
  total_order_like localeCompare -> transitive_like localeCompare ->
  equal_names_like localeCompare ->
  exists w',
    load localeCompare (success data) w = (Normal tt, w') /\
    List.filter (same_name_as localeCompare k) (countries (app w')) =
    List.filter (same_name_as localeCompare k) data.
Proof.
  intros _ _ Heq. eexists. split; [apply load_world|]. cbn [app countries].
  apply (Array_sort_stable (by_common_name localeCompare) k).
  intros x y. apply Heq.
Qed.

(** ** The order of the list that is shown *)

Lemma sublist_Forall {A : Type} (P : A -> Prop) (l1 l2 : list A) :
  sublist l1 l2 -> Forall P l2 -> Forall P l1.
Proof.
  induction 1 as [|x l1 l2 Hs IH|x l1 l2 Hs IH]; intros Hall.
  - constructor.
  - inversion Hall; subst. constructor; [assumption|]. apply IH. assumption.
  - inversion Hall; subst. apply IH. assumption.
Qed.

Lemma sublist_StronglySorted {A : Type} (R : A -> A -> Prop) (l1 l2 : list A) :
  sublist l1 l2 -> StronglySorted R l2 -> StronglySorted R l1.
Proof.
  induction 1 as [|x l1 l2 Hs IH|x l1 l2 Hs IH]; intros Hsorted.
  - constructor.
  - inversion Hsorted; subst. constructor; [apply IH; assumption|].
    eapply sublist_Forall; eassumption.
  - inversion Hsorted; subst. apply IH. assumption.
Qed.

Lemma Sorted_transitive_StronglySorted {A : Type} (R : A -> A -> Prop)
  (l : list A) :
  (forall a b c, R a b -> R b c -> R a c) ->
  Sorted R l -> StronglySorted R l.
Proof.
  intros Htrans. induction 1 as [|x l Hs IH Hh]; constructor; [exact IH|].
  destruct Hh as [|y l Hxy]; [constructor|].
  inversion IH; subst. constructor; [exact Hxy|].
  eapply Forall_impl; [eassumption|]. intros z Hyz. cbn in Hyz.
  eapply Htrans; eassumption.
Qed.

(** X5: after a successful load the list that is shown is in order for
    every query: whenever [localeCompare] is total and transitive, each
    entry of [filtered] compares less than or equal to every entry that
    comes after it. *)
Theorem shown_list_is_sorted (toLowerCase : JSString -> JSString)
  (localeCompare : JSString -> JSString -> Z) (data : list Country)
  (w : World) (q : JSString) :
  total_order_like localeCompare -> transitive_like localeCompare ->
  exists w',
    load localeCompare (success data) w = (Normal tt, w') /\
    StronglySorted (name_le localeCompare)
      (filtered toLowerCase (countries (app w')) q).
Proof.
  intros Htotal Htrans. eexists. split; [apply load_world|].
  cbn [app countries].
  apply sublist_StronglySorted
    with (l2 := Array_sort (by_common_name localeCompare) data).
  - rewrite filtered_shown. apply filter_sublist.
  - apply Sorted_transitive_StronglySorted.
    + intros a b c. apply Htrans.
    + apply (Array_sort_Sorted (by_common_name localeCompare)).
      intros a b. apply Htotal.
Qed.

(** ** [filtered] once more *)

Lemma occurs_in_trans (a b c : JSString) :
  occurs_in a b -> occurs_in b c -> occurs_in a c.
Proof.
  intros [p1 [s1 ->]] [p2 [s2 ->]].
  exists (p2 ++ p1), (s1 ++ s2). rewrite <- !app_assoc. reflexivity.
Qed.

Lemma filter_implies_sublist {A : Type} (p1 p2 : A -> bool) (l : list A) :
  (forall x, p2 x = true -> p1 x = true) ->
  sublist (List.filter p2 l) (List.filter p1 l).
Proof.
  intros Himp. induction l as [|x l IH]; simpl; [constructor|].
  destruct (p2 x) eqn:E2.
  - rewrite (Himp x E2). constructor. exact IH.
  - destruct (p1 x); [constructor|]; exact IH.
Qed.

(** X6: only the lower-cased query matters: two non-empty queries with
    the same lower-case form, such as the same word in different case,
    select the same entries. *)
Theorem filtered_ignores_query_case (toLowerCase : JSString -> JSString)
  (C : list Country) (q1 q2 : JSString) :
  q1 <> [] -> q2 <> [] -> toLowerCase q1 = toLowerCase q2 ->
  filtered toLowerCase C q1 = filtered toLowerCase C q2.
Proof.
  intros H1 H2 Heq. unfold filtered.
  destruct q1 as [|x1 q1]; [contradiction|].
  destruct q2 as [|x2 q2]; [contradiction|].
  cbn [truthy]. unfold Array_filter. apply filter_ext.
  intros c. unfold name_matches. rewrite Heq. reflexivity.
Qed.

(** X7: a query that contains another one, case ignored, selects a
    subsequence of what the other selects: refining the query never
    brings an entry back or reorders the list. *)
Theorem filtered_narrows (toLowerCase : JSString -> JSString)
  (C : list Country) (q1 q2 : JSString) :
  q2 <> [] -> occurs_in (toLowerCase q1) (toLowerCase q2) ->
  sublist (filtered toLowerCase C q2) (filtered toLowerCase C q1).
Proof.
  intros H2 Hocc. rewrite !filtered_shown. apply filter_implies_sublist.
  intros c. unfold shown.
  destruct q2 as [|x2 q2]; [contradiction|]. cbn [truthy].
  destruct (truthy q1); [|reflexivity].
  rewrite !name_matches_contains. unfold contains_ignoring_case.
  intros Hc. eapply occurs_in_trans; eassumption.
Qed.

(** ** [formatPopulation] once more *)

Section Monotone.
Import Number NumberFacts.

Lemma round_half_even_bounds (a b : Z) :
  a / b <= round_half_even a b <= a / b + 1.
Proof.
  unfold round_half_even.
  destruct (2 * (a mod b) <? b); [lia|].
  destruct (b <? 2 * (a mod b)); [lia|].
  destruct (Z.even (a / b)); lia.
Qed.

(** Rounding keeps the order of the numerators. *)
Lemma round_half_even_mono (a a' b : Z) :
  0 < b -> a <= a' -> round_half_even a b <= round_half_even a' b.
Proof.
  intros Hb Ha.
  assert (Hq : a / b <= a' / b) by (apply Z.div_le_mono; lia).
  destruct (Z.eq_dec (a / b) (a' / b)) as [E|E].
  - pose proof (Z.div_mod a b ltac:(lia)) as H1.
    pose proof (Z.div_mod a' b ltac:(lia)) as H2.
    unfold round_half_even. rewrite <- E in *.
    destruct (2 * (a mod b) <? b) eqn:E1;
      destruct (2 * (a' mod b) <? b) eqn:E2;
      destruct (b <? 2 * (a mod b)) eqn:E3;
      destruct (b <? 2 * (a' mod b)) eqn:E4;
      destruct (Z.even (a / b));
      rewrite ?Z.ltb_lt, ?Z.ltb_ge in *; lia.
  - pose proof (round_half_even_bounds a b).
    pose proof (round_half_even_bounds a' b). lia.
Qed.

(** The significand of a quotient lies between [2 ^ 52] and [2 ^ 53]. *)
Lemma div_significand (n d : Z) :
  0 < d -> d <= n -> n / d < 2 ^ 52 ->
  let s := 52 - Z.log2 (n / d) in
  2 ^ 52 <= round_half_even (n * 2 ^ s) d <= 2 ^ 53.
Proof.
  intros Hd Hn Hq s.
  assert (H1 : 1 <= n / d) by (apply Z.div_le_lower_bound; lia).
  destruct (Z.log2_spec (n / d) ltac:(lia)) as [Hlo Hhi].
  assert (Hk : 0 <= Z.log2 (n / d)) by apply Z.log2_nonneg.
  set (k := Z.log2 (n / d)) in *.
  assert (Hk52 : k < 52) by (apply Z.log2_lt_pow2; lia).
  pose proof (Z.div_mod n d ltac:(lia)) as Hdm.
  pose proof (Z.mod_pos_bound n d Hd) as Hr.
  assert (Hs1 : 2 ^ 52 = 2 ^ k * 2 ^ s)
    by (rewrite <- Z.pow_add_r by lia; f_equal; lia).
  assert (Hs2 : 2 ^ 53 = 2 ^ Z.succ k * 2 ^ s)
    by (rewrite <- Z.pow_add_r by lia; f_equal; lia).
  assert (HP : 0 < 2 ^ s) by (apply Z.pow_pos_nonneg; lia).
  split.
  - rewrite <- (round_half_even_exact (2 ^ 52) d Hd) at 1.
    apply round_half_even_mono; [exact Hd|]. rewrite Hs1. nia.
  - rewrite <- (round_half_even_exact (2 ^ 53) d Hd) at 1.
    apply round_half_even_mono; [exact Hd|]. rewrite Hs2. nia.
Qed.

(** The printed tenths keep the order of the populations. *)
Lemma tenths_mono (n n' : Z) :
  1000000 <= n -> n <= n' -> n' < two53 -> tenths n <= tenths n'.
Proof.
  unfold two53. intros Hn Hnn Hn'.
  assert (H53 : 2 ^ 53 = 9007199254740992) by reflexivity.
  assert (H34 : 2 ^ 34 = 17179869184) by reflexivity.
  assert (Hq : n / 1000000 < 2 ^ 52).
  { apply Z.div_lt_upper_bound; [lia|]. change (2 ^ 52) with 4503599627370496. lia. }
  assert (Hq' : n' / 1000000 < 2 ^ 52).
  { apply Z.div_lt_upper_bound; [lia|]. change (2 ^ 52) with 4503599627370496. lia. }
  assert (H1 : 1 <= n / 1000000) by (apply Z.div_le_lower_bound; lia).
  assert (Hqq : n / 1000000 <= n' / 1000000) by (apply Z.div_le_mono; lia).
  destruct (div_small n 1000000) as [Hs Hdiv]; [lia|lia|lia|].
  destruct (div_small n' 1000000) as [Hs' Hdiv']; [lia|lia|lia|].
  pose proof (div_significand n 1000000 ltac:(lia) ltac:(lia) Hq) as Hm.
  pose proof (div_significand n' 1000000 ltac:(lia) ltac:(lia) Hq') as Hm'.
  cbv zeta in Hm, Hm'.
  assert (Hkk : Z.log2 (n / 1000000) <= Z.log2 (n' / 1000000))
    by (apply Z.log2_le_mono; exact Hqq).
  unfold tenths. rewrite Hdiv, Hdiv'. clear Hdiv Hdiv'.
  set (s := 52 - Z.log2 (n / 1000000)) in *.
  set (s' := 52 - Z.log2 (n' / 1000000)) in *.
  rewrite !scaled_nearest_neg by lia. change (10 ^ Z.of_nat 1) with 10.
  set (m := round_half_even (n * 2 ^ s) 1000000) in *.
  set (m' := round_half_even (n' * 2 ^ s') 1000000) in *.
  assert (HP : 0 < 2 ^ s) by (apply Z.pow_pos_nonneg; lia).
  assert (HP' : 0 < 2 ^ s') by (apply Z.pow_pos_nonneg; lia).
  (* the rounded quotients are in order: m / 2 ^ s <= m' / 2 ^ s' *)
  assert (Hval : m * 2 ^ s' <= m' * 2 ^ s).
  { destruct (Z.eq_dec s s') as [E|E].
    - assert (m <= m'); [|rewrite <- E; nia].
      subst m m'. rewrite <- E. apply round_half_even_mono; nia.
    - assert (Hss : 2 * 2 ^ s' <= 2 ^ s).
      { rewrite <- Z.pow_succ_r by lia. apply Z.pow_le_mono_r; lia. }
      change (2 ^ 53) with (2 * 2 ^ 52) in Hm. nia. }
  set (P := 2 ^ s) in *. set (P' := 2 ^ s') in *.
  pose proof (Z.div_mod (2 * 10 * m + P) (2 * P) ltac:(lia)) as Hdm.
  pose proof (Z.mod_pos_bound (2 * 10 * m + P) (2 * P) ltac:(lia)) as Hr.
  set (N := (2 * 10 * m + P) / (2 * P)) in *.
  apply Z.div_le_lower_bound; [lia|].
  assert (HNP : P * (2 * P' * N) <= P * (2 * 10 * m' + P')) by nia.
  apply Z.mul_le_mono_pos_l in HNP; lia.
Qed.

(** X8: in the M tier, for safe integers, a larger population never
    prints a smaller value, and the value printed is never below 1.0:
    the tenths that [formatPopulation] prints for [n <= n'] are in that
    order and are at least ten. *)
Theorem formatPopulation_M_monotone (n n' : Z) :
  1000000 <= n -> n <= n' -> n' < Number.two53 ->
  formatPopulation n = Some (js (place_point 1 (tenths n)) ++ js "M") /\
  formatPopulation n' = Some (js (place_point 1 (tenths n')) ++ js "M") /\
  10 <= tenths n <= tenths n'.
Proof.
  intros Hn Hnn Hn'.
  destruct (formatPopulation_M n) as [Hout Hnear]; [lia|].
  destruct (formatPopulation_M n') as [Hout' _]; [lia|].
  split; [exact Hout|]. split; [exact Hout'|].
  split; [lia|]. apply tenths_mono; assumption.
Qed.

End Monotone.

(** ** The screen *)

(** X9: the capital line of a card is never empty: it is the first
    capital when there is one and it is not the empty string, and "Sem
    capital" when [capital] is absent, is the empty array, or starts with
    the empty string. *)
Theorem capital_text_cases (item : Country) :
  capital_text item <> [] /\
  (forall first rest,
      capital item = Some (first :: rest) -> first <> [] ->
      capital_text item = first) /\
  (capital item = None \/ capital item = Some [] \/
   (exists rest, capital item = Some ([] :: rest)) ->
   capital_text item = no_capital).
Proof.
  unfold capital_text. split; [|split].
  - destruct (capital item) as [[|[|x first] rest]|]; discriminate.
  - intros first rest -> Hfirst. destruct first; [contradiction|reflexivity].
  - intros [->|[->|[rest ->]]]; reflexivity.
Qed.

Lemma filtered_sublist (toLowerCase : JSString -> JSString)
  (C : list Country) (q : JSString) :
  sublist (filtered toLowerCase C q) C.
Proof. rewrite filtered_shown. apply filter_sublist. Qed.

Lemma filtered_nil_iff (toLowerCase : JSString -> JSString)
  (C : list Country) (q : JSString) :
  filtered toLowerCase C q = [] <->
  forall c, In c C -> shown toLowerCase q c = false.
Proof.
  rewrite filtered_shown. induction C as [|x C IH]; simpl.
  - split; [intros _ c []|reflexivity].
  - destruct (shown toLowerCase q x) eqn:E.
    + split; [discriminate|]. intros H.
      specialize (H x (or_introl eq_refl)). congruence.
    + rewrite IH. split.
      * intros H c [<-|Hc]; [exact E|apply H; exact Hc].
      * intros H c Hc. apply H. right. exact Hc.
Qed.

(** X10: once loading is over, the list shows either the message
    "Nenhum país encontrado." and no row, when no entry of the collection
    passes the query, or no message and one row for each entry that
    passes, in the order of [filtered]. *)
Theorem list_screen_rows (toLowerCase : JSString -> JSString)
  (st : AppState) :
  loading st = false ->
  let screen := App toLowerCase st in
  let matching := filtered toLowerCase (countries st) (query st) in
  List.map country_name (screen_rows screen)
  = List.map (fun c => common (name c)) matching /\
  List.map card_key (screen_rows screen) = List.map cca3 matching /\
  ((screen_empty_text screen = Some empty_message /\
    screen_rows screen = [] /\
    forall c, In c (countries st) -> shown toLowerCase (query st) c = false)
   \/
   (screen_empty_text screen = None /\ screen_rows screen <> [] /\
    exists c, In c (countries st) /\ shown toLowerCase (query st) c = true)).
Proof.
  intros Hloading screen matching. subst screen. unfold App.
  rewrite Hloading. cbn [screen_rows screen_empty_text FlatList fst snd].
  fold matching. split; [|split].
  - rewrite List.map_map. reflexivity.
  - rewrite List.map_map. reflexivity.
  - destruct matching as [|c rest] eqn:E.
    + left. split; [reflexivity|]. split; [reflexivity|].
      apply filtered_nil_iff. exact E.
    + right. split; [reflexivity|]. split; [discriminate|].
      exists c. assert (Hc : In c (filtered toLowerCase (countries st) (query st)))
        by (fold matching; rewrite E; left; reflexivity).
      rewrite filtered_shown in Hc. apply filter_In in Hc. exact Hc.
Qed.

(** ** Sequences of events *)

Lemma last_success_earlier (events : list Event)
  (earlier : option (list Country)) :
  last_success events earlier =
  match last_success events None with
  | Some data => Some data
  | None => earlier
  end.
Proof.
  revert earlier. induction events as [|e events IH]; intros earlier.
  - reflexivity.
  - destruct e as [[|[[|data]|]]|text]; cbn [last_success]; try apply IH.
    rewrite (IH (Some data)). destruct (last_success events None); reflexivity.
Qed.

Lemma run_cons (localeCompare : JSString -> JSString -> Z)
  (e : Event) (events : list Event) (w : World) :
  run localeCompare (e :: events) w =
  run localeCompare events (handle localeCompare e w).2.
Proof. reflexivity. Qed.

(** The world after a sequence of events, field by field. *)
Lemma run_world (localeCompare : JSString -> JSString -> Z)
  (events : list Event) (w : World) :
  let w' := run localeCompare events w in
  countries (app w') =
    match last_success events None with
    | Some data => Array_sort (by_common_name localeCompare) data
    | None => countries (app w)
    end /\
  loading (app w') = (if some_load events then false else loading (app w)) /\
  refreshing (app w')
  = (if some_load events then false else refreshing (app w)) /\
  query (app w') = last_text events (query (app w)) /\
  console w' = console w ++ log_of events.
Proof.
  revert w. induction events as [|e events IH]; intros w.
  - cbn. rewrite app_nil_r. repeat split.
  - cbv zeta. rewrite run_cons.
    destruct (IH ((handle localeCompare e w).2)) as (Hc & Hl & Hr & Hq & Hlog).
    rewrite Hc, Hl, Hr, Hq, Hlog. clear IH Hc Hl Hr Hq Hlog.
    destruct e as [net|text]; cbn [handle].
    + rewrite load_world.
      cbn [snd app countries loading refreshing query console].
      cbn [some_load last_text log_of]. rewrite <- app_assoc.
      destruct net as [|[[|data]|]]; cbn [last_success];
        try (destruct (some_load events); repeat split; fail).
      rewrite (last_success_earlier events (Some data)).
      destruct (last_success events None), (some_load events);
        repeat split.
    + cbn. repeat split.
Qed.

(** X11: [refreshing] is false in every state the app reaches: nothing
    sets it to true, so the list never shows its refresh indicator. *)
Theorem refreshing_never_set (localeCompare : JSString -> JSString -> Z)
  (events : list Event) :
  refreshing (app (run localeCompare events first_load)) = false.
Proof.
  destruct (run_world localeCompare events first_load) as (_ & _ & Hr & _).
  rewrite Hr. destruct (some_load events); reflexivity.
Qed.

(** X12: in every state the app reaches, the collection is the sorted
    response of the last load that succeeded, and the empty sequence
    when none has: a failed load or a change of the query never alters
    it, and a new response replaces it whole.  It is therefore in order
    whenever [localeCompare] is total. *)
Theorem collection_is_last_response
  (localeCompare : JSString -> JSString -> Z) (events : list Event) :
  let shown_collection :=
    countries (app (run localeCompare events first_load)) in
  shown_collection =
    match last_success events None with
    | Some data => Array_sort (by_common_name localeCompare) data
    | None => []
    end /\
  (total_order_like localeCompare ->
   Sorted (name_le localeCompare) shown_collection).
Proof.
  destruct (run_world localeCompare events first_load) as (Hc & _).
  cbv zeta. rewrite Hc. split; [reflexivity|]. intros Htotal.
  destruct (last_success events None) as [data|]; [|constructor].
  apply (Array_sort_Sorted (by_common_name localeCompare)).
  intros a b. apply Htotal.
Qed.

Lemma log_of_length (events : list Event) :
  length (log_of events) = failed_loads events.
Proof.
  induction events as [|[net|text] events IH]; cbn [log_of failed_loads].
  - reflexivity.
  - rewrite length_app, IH. f_equal.
    destruct net as [|[[|data]|]]; reflexivity.
  - exact IH.
Qed.

(** X13: the console holds exactly one entry for each load that failed,
    in the order of the failures; loads that succeed and changes of the
    query write nothing. *)
Theorem console_counts_failures
  (localeCompare : JSString -> JSString -> Z) (events : list Event) :
  console (run localeCompare events first_load) = log_of events /\
  length (console (run localeCompare events first_load))
  = failed_loads events.
Proof.
  destruct (run_world localeCompare events first_load) as (_ & _ & _ & _ & Hlog).
  rewrite Hlog. cbn [first_load console app_nil_l]. split; [reflexivity|].
  apply log_of_length.
Qed.

(** X14: the query is the text typed last, the empty string before any
    typing, and the loading screen is up exactly until the first load
    settles; a load never changes the query and typing never ends the
    loading. *)
Theorem query_and_loading (localeCompare : JSString -> JSString -> Z)
  (events : list Event) :
  query (app (run localeCompare events first_load)) = last_text events [] /\
  loading (app (run localeCompare events first_load))
  = negb (some_load events).
Proof.
  destruct (run_world localeCompare events first_load) as (_ & Hl & _ & Hq & _).
  rewrite Hl, Hq. destruct (some_load events); split; reflexivity.
Qed.

Lemma last_success_In (events : list Event) (data : list Country) :
  last_success events None = Some data ->
  In (LoadSettles (success data)) events.
Proof.
  induction events as [|e events IH]; [discriminate|].
  intros H. destruct e as [[|[[|d]|]]|text]; cbn [last_success] in H;
    try (right; apply IH; exact H).
  rewrite last_success_earlier in H.
  destruct (last_success events None) as [latest|] eqn:E.
  - right. apply IH. exact H.
  - injection H as <-. left. reflexivity.
Qed.

(** X15: the keys of the rows are pairwise distinct in every state the
    app reaches and for every query, provided that each response that
    was loaded has pairwise distinct [cca3] codes. *)
Theorem row_keys_distinct (toLowerCase : JSString -> JSString)
  (localeCompare : JSString -> JSString -> Z) (events : list Event) :
  (forall data, In (LoadSettles (success data)) events ->
                NoDup (List.map cca3 data)) ->
  NoDup (List.map card_key
           (screen_rows
              (App toLowerCase (app (run localeCompare events first_load))))).
Proof.
  intros Hcodes. unfold App.
  destruct (loading _); [constructor|].
  cbn [screen_rows FlatList fst]. rewrite List.map_map.
  change (fun x => card_key (renderItem x)) with cca3.
  destruct (run_world localeCompare events first_load) as (Hc & _).
  cbv zeta in Hc. rewrite Hc. clear Hc.
  eapply sublist_NoDup;
    [|apply (fmap_sublist cca3); apply filtered_sublist].
  destruct (last_success events None) as [data|] eqn:E; [|constructor].
  apply last_success_In in E.
  eapply (NoDup_Permutation_proper _ _); [|apply Hcodes; exact E].
  apply Permutation_map. apply Array_sort_Permutation.
Qed.

Lemma some_load_typing (typed : list JSString) :
  some_load (List.map ChangeText typed) = false.
Proof. induction typed as [|t typed IH]; [reflexivity|exact IH]. Qed.

(** X16: before any load has settled the app shows the loading screen,
    whatever is typed; once the first load has failed it shows the list
    screen with "0 países", no row and the message "Nenhum país
    encontrado.", whatever the query. *)
Theorem failed_first_load_screen (toLowerCase : JSString -> JSString)
  (localeCompare : JSString -> JSString -> Z) (typed : list JSString)
  (net : Fetched) (q : JSString) :
  failed net = true ->
  App toLowerCase
    (app (run localeCompare (List.map ChangeText typed) first_load))
  = LoadingScreen loading_message /\
  App toLowerCase
    (app (run localeCompare [LoadSettles net; ChangeText q] first_load))
  = ListScreen header_title (js "0" ++ countries_suffix)
      search_placeholder q [] (Some empty_message).
Proof.
  intros Hnet. split.
  - unfold App.
    destruct (run_world localeCompare (List.map ChangeText typed) first_load)
      as (_ & Hl & _).
    cbv zeta in Hl. rewrite Hl, some_load_typing. reflexivity.
  - destruct net as [|[[|data]|]]; try discriminate; cbn;
      destruct q; reflexivity.
Qed.

(** ** The sample comparison once more *)

Lemma code_unit_compare_eq (a b : JSString) :
  code_unit_compare a b = 0 <-> a = b.
Proof.
  revert b. induction a as [|x a IH]; intros [|y b]; simpl;
    try (split; [discriminate|discriminate]); [split; reflexivity|].
  destruct (N.compare_spec x y) as [->|Hlt|Hgt].
  - rewrite IH. split; [intros ->; reflexivity|intros H; injection H; auto].
  - split; [discriminate|]. intros H. injection H as -> _. lia.
  - split; [discriminate|]. intros H. injection H as -> _. lia.
Qed.

Lemma code_unit_compare_trans (a b c : JSString) :
  code_unit_compare a b <= 0 -> code_unit_compare b c <= 0 ->
  code_unit_compare a c <= 0.
Proof.
  revert b c. induction a as [|x a IH]; intros [|y b] [|z c]; simpl;
    try lia.
  destruct (N.compare_spec x y) as [->|Hxy|Hxy]; try lia.
  - destruct (N.compare_spec y z) as [->|Hyz|Hyz]; try lia. apply IH.
  - intros _. destruct (N.compare_spec y z) as [->|Hyz|Hyz]; try lia.
    + intros _. destruct (N.compare_spec x z); lia.
    + intros _. destruct (N.compare_spec x z); lia.
Qed.

Lemma ascii_localeCompare_transitive : transitive_like ascii_localeCompare.
Proof. intros a b c. apply code_unit_compare_trans. Qed.

Lemma ascii_localeCompare_equal : equal_names_like ascii_localeCompare.
Proof.
  intros a b k Ha Hb. unfold ascii_localeCompare in *.
  apply code_unit_compare_eq in Ha, Hb. apply code_unit_compare_eq.
  congruence.
Qed.

(** ** The further properties at concrete inputs *)

Lemma load_keeps_sorted_response_witness :
  Sorted (name_le ascii_localeCompare) [Aland; Zedland] /\
  exists w',
    load ascii_localeCompare (success [Aland; Zedland]) first_load
    = (Normal tt, w') /\
    countries (app w') = [Aland; Zedland].
Proof.
  assert (H : Sorted (name_le ascii_localeCompare) [Aland; Zedland]).
  { repeat constructor. unfold name_le. vm_compute. discriminate. }
  split; [exact H|].
  apply (load_keeps_sorted_response ascii_localeCompare
           [Aland; Zedland] first_load ascii_localeCompare_total
           ascii_localeCompare_transitive H).
Defined.

Lemma load_is_stable_witness :
  equal_names_like ascii_localeCompare /\
  exists w',
    load ascii_localeCompare (success [Zedland; Aland; Zedland]) first_load
    = (Normal tt, w') /\
    List.filter (same_name_as ascii_localeCompare Zedland) (countries (app w'))
    = List.filter (same_name_as ascii_localeCompare Zedland)
        [Zedland; Aland; Zedland].
Proof.
  split; [exact ascii_localeCompare_equal|].
  apply (load_is_stable ascii_localeCompare [Zedland; Aland; Zedland]
           first_load Zedland ascii_localeCompare_total
           ascii_localeCompare_transitive ascii_localeCompare_equal).
Defined.

Lemma shown_list_is_sorted_witness :
  total_order_like ascii_localeCompare /\
  transitive_like ascii_localeCompare /\
  exists w',
    load ascii_localeCompare (success [Zedland; Antarctica; Aland]) first_load
    = (Normal tt, w') /\
    StronglySorted (name_le ascii_localeCompare)
      (filtered ascii_toLowerCase (countries (app w')) (js "land")).
Proof.
  split; [exact ascii_localeCompare_total|].
  split; [exact ascii_localeCompare_transitive|].
  apply (shown_list_is_sorted ascii_toLowerCase ascii_localeCompare
           [Zedland; Antarctica; Aland] first_load (js "land")
           ascii_localeCompare_total ascii_localeCompare_transitive).
Defined.

Lemma filtered_ignores_query_case_witness :
  js "LAND" <> [] /\ js "land" <> [] /\
  ascii_toLowerCase (js "LAND") = ascii_toLowerCase (js "land") /\
  filtered ascii_toLowerCase [Zedland; Antarctica; Aland] (js "LAND")
  = filtered ascii_toLowerCase [Zedland; Antarctica; Aland] (js "land").
Proof.
  split; [discriminate|]. split; [discriminate|]. split; [reflexivity|].
  apply (filtered_ignores_query_case ascii_toLowerCase); [discriminate..|].
  reflexivity.
Defined.

Lemma filtered_narrows_witness :
  js "LAND" <> [] /\
  occurs_in (ascii_toLowerCase (js "an")) (ascii_toLowerCase (js "LAND")) /\
  sublist (filtered ascii_toLowerCase [Zedland; Antarctica; Aland] (js "LAND"))
          (filtered ascii_toLowerCase [Zedland; Antarctica; Aland] (js "an")).
Proof.
  assert (H : occurs_in (ascii_toLowerCase (js "an"))
                        (ascii_toLowerCase (js "LAND")))
    by (exists (js "l"), (js "d"); reflexivity).
  split; [discriminate|]. split; [exact H|].
  apply (filtered_narrows ascii_toLowerCase); [discriminate|exact H].
Defined.

Lemma formatPopulation_M_monotone_witness :
  1000000 <= 1150000 /\ 1150000 <= 1250000 /\ 1250000 < Number.two53 /\
  10 <= tenths 1150000 <= tenths 1250000.
Proof.
  assert (H1 : 1000000 <= 1150000) by lia.
  assert (H2 : 1150000 <= 1250000) by lia.
  assert (H3 : 1250000 < Number.two53) by (unfold Number.two53; lia).
  split; [exact H1|]. split; [exact H2|]. split; [exact H3|].
  apply (formatPopulation_M_monotone 1150000 1250000 H1 H2 H3).
Defined.

Lemma capital_text_cases_witness :
  capital Zedland = Some [js "Zed City"] /\ js "Zed City" <> [] /\
  capital_text Zedland = js "Zed City" /\
  capital_text Antarctica = no_capital.
Proof.
  split; [reflexivity|]. split; [discriminate|]. split.
  - apply (proj1 (proj2 (capital_text_cases Zedland)) (js "Zed City") []);
      [reflexivity|discriminate].
  - apply (proj2 (proj2 (capital_text_cases Antarctica))). left. reflexivity.
Defined.

Lemma list_screen_rows_witness :
  loading sample_state = false /\
  List.map country_name (screen_rows (App ascii_toLowerCase sample_state))
  = [js "Aland"; js "Zedland"].
Proof.
  split; [reflexivity|].
  apply (proj1 (list_screen_rows ascii_toLowerCase sample_state eq_refl)).
Defined.

Lemma collection_is_last_response_witness :
  total_order_like ascii_localeCompare /\
  Sorted (name_le ascii_localeCompare)
    (countries (app (run ascii_localeCompare sample_events first_load))).
Proof.
  split; [exact ascii_localeCompare_total|].
  apply (proj2 (collection_is_last_response ascii_localeCompare sample_events)).
  exact ascii_localeCompare_total.
Defined.

Lemma sample_codes_distinct (data : list Country) :
  In (LoadSettles (success data)) sample_events -> NoDup (List.map cca3 data).
Proof.
  intros [H|[H|[H|[H|[]]]]]; try discriminate.
  injection H as <-. apply NoDup_cons. split.
  - intros Hin. apply list_elem_of_In in Hin. destruct Hin as [H|[]].
    discriminate.
  - apply NoDup_cons. split; [|constructor].
    intros Hin. apply list_elem_of_In in Hin. destruct Hin.
Qed.

Lemma row_keys_distinct_witness :
  (forall data, In (LoadSettles (success data)) sample_events ->
                NoDup (List.map cca3 data)) /\
  NoDup (List.map card_key
           (screen_rows
              (App ascii_toLowerCase
                 (app (run ascii_localeCompare sample_events first_load))))).
Proof.
  split; [exact sample_codes_distinct|].
  apply (row_keys_distinct ascii_toLowerCase ascii_localeCompare sample_events
           sample_codes_distinct).
Defined.

Lemma failed_first_load_screen_witness :
  failed (Responded None) = true /\
  App ascii_toLowerCase
    (app (run ascii_localeCompare
            [LoadSettles (Responded None); ChangeText (js "a")] first_load))
  = ListScreen header_title (js "0" ++ countries_suffix)
      search_placeholder (js "a") [] (Some empty_message).
Proof.
  split; [reflexivity|].
  apply (proj2 (failed_first_load_screen ascii_toLowerCase ascii_localeCompare
                  [] (Responded None) (js "a") eq_refl)).
Defined.
